(** * Shortest attack paths: the graph store, Dijkstra, path rebuilding,
      hub connectivity and asset ranking of
      [Using_Dijkstra_to_Find_Shortest_Attack_Path.py]

    The Python module is embedded shallowly, twice.  Dictionaries are
    [gmap]s keyed by strings, the visited set is a [gset], lists are lists.
    The first embedding computes with integers ([Z]), which never round or
    overflow; the value [float("inf")] that [dict.get] falls back to is the
    constructor [Infinity] of [Cost].  The second one, module [B64], computes
    as the program does, with binary64 floats.  What depends only on the
    structure of the program is proved on the first; what depends on the
    sums of line 62 is carried over to [B64] for the weights on which
    binary64 is exact, and refuted on [B64] where it is not.  The two
    [while] loops carry a fuel argument; the theorems show which fuel is
    enough. *)

From Stdlib Require Import ZArith String List Lia.
From Stdlib Require Import PrimFloat.
From stdpp Require Import base option list gmap strings sorting.

Local Open Scope Z_scope.

(** ** Graph structures *)

(** [@dataclass(frozen=True) class Edge]. *)
Record Edge : Type := mkEdge {
  src : string;
  dst : string;
  Result : string;
  weight : Z
}.

(** [class Graph]: its only attribute is the adjacency dictionary. *)
Record Graph : Type := mkGraph {
  adj : gmap string (list Edge)
}.

(** [Graph.__init__]. *)
Definition empty_graph : Graph := mkGraph ∅.

(** [dict.setdefault(k, [])] on the adjacency dictionary: the dictionary
    afterwards (the list it returns is then [a !! k]). *)
Definition setdefault_nil (a : gmap string (list Edge)) (k : string)
  : gmap string (list Edge) :=
  match a !! k with
  | Some _ => a
  | None => <[k := []]> a
  end.

(** [Graph.add_edge]: append to the list of [src] (created when missing), then
    make sure [dst] is a key. *)
Definition add_edge (g : Graph) (s d r : string) (w : Z) : Graph :=
  let a0 := setdefault_nil (adj g) s in
  let a1 := <[s := default [] (a0 !! s) ++ [mkEdge s d r w]]> a0 in
  mkGraph (setdefault_nil a1 d).

(** [Graph.neighbors]: [self.adj.get(node, [])]. *)
Definition neighbors (g : Graph) (node : string) : list Edge :=
  default [] (adj g !! node).

(** [Graph.nodes]: the keys of the dictionary.  The order of the list is the
    map's own, not Python's insertion order; no statement below reads it. *)
Definition nodes (g : Graph) : list string :=
  (map_to_list (adj g)).*1.

(** ** Costs: a float that may be [float("inf")] *)

Inductive Cost : Type :=
| Finite (z : Z)
| Infinity.

Definition cost_ltb (a b : Cost) : bool :=
  match a, b with
  | Finite x, Finite y => x <? y
  | Finite _, Infinity => true
  | Infinity, _ => false
  end.

Definition cost_leb (a b : Cost) : bool :=
  match a, b with
  | Finite x, Finite y => x <=? y
  | _, Infinity => true
  | Infinity, Finite _ => false
  end.

Definition cost_eqb (a b : Cost) : bool :=
  match a, b with
  | Finite x, Finite y => x =? y
  | Infinity, Infinity => true
  | _, _ => false
  end.

(** [d.get(v, float("inf"))]. *)
Definition dist_get (d : gmap string Z) (v : string) : Cost :=
  match d !! v with
  | Some x => Finite x
  | None => Infinity
  end.

(** ** The priority queue

    [heapq] keeps a binary heap in a Python list.  What the program observes
    of it is that [heappop] removes and returns a smallest item, tuples
    [(float, str)] being compared lexicographically; equal tuples are
    indistinguishable.  The queue is therefore a list of entries, [heappush]
    adds one, and [heappop] takes out a smallest one. *)

Definition entry : Type := Z * string.

Definition entry_ltb (a b : entry) : bool :=
  (a.1 <? b.1) || ((a.1 =? b.1) && String.ltb a.2 b.2).

Fixpoint heap_min (m : entry) (l : list entry) : entry :=
  match l with
  | [] => m
  | x :: l' => heap_min (if entry_ltb x m then x else m) l'
  end.

Fixpoint remove_first (m : entry) (l : list entry) : list entry :=
  match l with
  | [] => []
  | x :: l' => if decide (x = m) then l' else x :: remove_first m l'
  end.

Definition heappush (pq : list entry) (x : entry) : list entry := pq ++ [x].

Definition heappop (pq : list entry) : option (entry * list entry) :=
  match pq with
  | [] => None
  | x :: l => let m := heap_min x l in Some (m, remove_first m pq)
  end.

(** ** Dijkstra *)

(** [@dataclass class DijkstraResult]. *)
Record DijkstraResult : Type := mkResult {
  dist : gmap string Z;
  prev : gmap string (string * Edge)
}.

(** The local variables of [dijkstra] that live across loop iterations. *)
Record LoopState : Type := mkState {
  s_dist : gmap string Z;
  s_prev : gmap string (string * Edge);
  s_pq : list entry;
  s_visited : gset string
}.

(** Lines 46-49. *)
Definition init_state (start : string) : LoopState :=
  mkState {[start := 0]} ∅ [(0, start)] ∅.

(** The body of [for e in graph.neighbors(u)] (lines 61-66). *)
Definition relax_edge (u : string) (cur_d : Z) (st : LoopState) (e : Edge)
  : LoopState :=
  let v := dst e in
  let nd := cur_d + weight e in
  if cost_ltb (Finite nd) (dist_get (s_dist st) v)
  then mkState (<[v := nd]> (s_dist st))
               (<[v := (u, e)]> (s_prev st))
               (heappush (s_pq st) (nd, v))
               (s_visited st)
  else st.

(** What one iteration of [while pq] does after popping [(cur_d, u)] with
    the rest of the queue [pq'] (lines 53-66). *)
Definition loop_body (g : Graph) (st : LoopState) (cur_d : Z) (u : string)
    (pq' : list entry) : LoopState :=
  if decide (u ∈ s_visited st)
  then mkState (s_dist st) (s_prev st) pq' (s_visited st)
  else
    let visited' := {[u]} ∪ s_visited st in
    if negb (cost_eqb (Finite cur_d) (dist_get (s_dist st) u))
    then mkState (s_dist st) (s_prev st) pq' visited'
    else fold_left (relax_edge u cur_d) (neighbors g u)
                   (mkState (s_dist st) (s_prev st) pq' visited').

(** One turn of the [while]: [None] when the queue is empty and the loop
    exits. *)
Definition dijkstra_step (g : Graph) (st : LoopState) : option LoopState :=
  match heappop (s_pq st) with
  | None => None
  | Some ((cur_d, u), pq') => Some (loop_body g st cur_d u pq')
  end.

(** The [while pq] loop; [None] when the fuel runs out before the queue is
    empty. *)
Fixpoint dijkstra_loop (fuel : nat) (g : Graph) (st : LoopState)
  : option LoopState :=
  match dijkstra_step g st with
  | None => Some st
  | Some st' =>
      match fuel with
      | O => None
      | S f => dijkstra_loop f g st'
      end
  end.

Definition dijkstra_fuel (fuel : nat) (g : Graph) (start : string)
  : option DijkstraResult :=
  match dijkstra_loop fuel g (init_state start) with
  | Some st => Some (mkResult (s_dist st) (s_prev st))
  | None => None
  end.

(** The number of stored edges. *)
Definition edge_count (g : Graph) : nat :=
  sum_list_with (λ kv, length kv.2) (map_to_list (adj g)).

(** [dijkstra]: the loop is run with one unit of fuel per possible push, the
    seed and one per stored edge ([dijkstra_total] shows that this is
    enough, and [dijkstra_fuel_mono] that more changes nothing). *)
Definition dijkstra (g : Graph) (start : string) : option DijkstraResult :=
  dijkstra_fuel (S (edge_count g)) g start.

(** ** Path reconstruction *)

(** The [while cur != start] loop of [rebuild_path] (lines 76-82); [None]
    when the fuel runs out. *)
Fixpoint rebuild_loop (fuel : nat) (prev : gmap string (string * Edge))
    (start cur : string) (out_rev : list Edge) : option (list Edge) :=
  if decide (cur = start) then Some (rev out_rev)
  else
    match prev !! cur with
    | None => Some []
    | Some (parent, edge) =>
        match fuel with
        | O => None
        | S f => rebuild_loop f prev start parent (out_rev ++ [edge])
        end
    end.

Definition rebuild_path_fuel (fuel : nat) (prev : gmap string (string * Edge))
    (start target : string) : option (list Edge) :=
  if decide (target = start) then Some []
  else rebuild_loop fuel prev start target [].

(** [rebuild_path]: every turn of the loop reads a key of [prev], so a walk
    that ends takes at most [size prev] turns. *)
Definition rebuild_path (prev : gmap string (string * Edge))
    (start target : string) : option (list Edge) :=
  rebuild_path_fuel (size prev) prev start target.

(** ** Connectivity guarantee *)

(** The body of [for n in nodes] (lines 111-113). *)
Definition connect_node (core_node : string)
    (default_to_core default_from_core : Z) (overrides : gmap string (Z * Z))
    (g : Graph) (n : string) : Graph :=
  let '(to_w, from_w) :=
    default (default_to_core, default_from_core) (overrides !! n) in
  let g1 := add_edge g n core_node "route_to_core" to_w in
  add_edge g1 core_node n "route_from_core" from_w.

(** [add_core_connectivity] (lines 108-113). *)
Definition add_core_connectivity (g : Graph) (nodes : list string)
    (core_node : string) (default_to_core default_from_core : Z)
    (overrides : gmap string (Z * Z)) : Graph :=
  let g0 := add_edge g core_node core_node "noop" 0 in
  fold_left
    (connect_node core_node default_to_core default_from_core overrides)
    nodes g0.

(** The two operations that change a graph, and a run of them from the
    empty graph. *)
Inductive GraphOp : Type :=
| OpAddEdge (s d r : string) (w : Z)
| OpCoreConnectivity (nodes : list string) (core_node : string)
    (default_to_core default_from_core : Z) (overrides : gmap string (Z * Z)).

Definition apply_op (g : Graph) (op : GraphOp) : Graph :=
  match op with
  | OpAddEdge s d r w => add_edge g s d r w
  | OpCoreConnectivity ns c dt df ov => add_core_connectivity g ns c dt df ov
  end.

Definition run_ops (ops : list GraphOp) : Graph :=
  fold_left apply_op ops empty_graph.

(** ** Ranking and the query of [main] *)

(** [list.sort(key=lambda x: x[1])] on pairs [(name, cost)]: a stable sort by
    cost.  An item is put in front of the first later item whose cost is not
    smaller, so equal costs keep their order. *)
Fixpoint insert_by_cost (x : string * Cost) (l : list (string * Cost))
  : list (string * Cost) :=
  match l with
  | [] => [x]
  | y :: l' =>
      if cost_leb x.2 y.2 then x :: y :: l' else y :: insert_by_cost x l'
  end.

Definition sort_by_cost (l : list (string * Cost)) : list (string * Cost) :=
  foldr insert_by_cost [] l.

(** Lines 271-274: pair every target with its distance, then sort. *)
Definition rank (d : gmap string Z) (targets : list string)
  : list (string * Cost) :=
  sort_by_cost (map (λ a, (a, dist_get d a)) targets).

(** What [main] reports for a query. *)
Inductive MainOutcome : Type :=
| StartNotInGraph (start : string)
| TargetNotInGraph (target : string)
| PathFound (cost : Cost) (path : list Edge) (ranked : list (string * Cost)).

(** Lines 243-274 of [main] for a graph [g] and asset list [assets]: the two
    membership guards, then the query and the ranking.  [None] stands for a
    loop that does not end. *)
Definition main_query (g : Graph) (assets : list string)
    (start target : string) : option MainOutcome :=
  let all_nodes : gset string := list_to_set (nodes g) in
  if decide (start ∉ all_nodes) then Some (StartNotInGraph start)
  else if decide (target ∉ all_nodes) then Some (TargetNotInGraph target)
  else
    match dijkstra g start with
    | None => None
    | Some res =>
        let cost := dist_get (dist res) target in
        match rebuild_path (prev res) start target with
        | None => None
        | Some path => Some (PathFound cost path (rank (dist res) assets))
        end
    end.

(** ** The hard-coded demo graph *)

Local Open Scope string_scope.

Definition assets : list string :=
  [ "Finance_Database"; "HR_Database"; "Customer_Database";
    "Orders_Database"; "vault:secrets"; "Logs" ].

Definition other_nodes : list string :=
  [ "attacker"; "ws:employee_pc"; "user:employee"; "share:common";
    "creds:leaked"; "srv:jumpbox"; "srv:fileserver"; "srv:ad"; "user:admin";
    "web:public_site"; "web:internal_app"; "srv:api" ].

Definition demo_overrides : gmap string (Z * Z) :=
  list_to_map
    [ ("vault:secrets", (250, 250)); ("Logs", (180, 180));
      ("srv:ad", (120, 120)); ("Finance_Database", (160, 160));
      ("HR_Database", (110, 110)); ("Customer_Database", (90, 90));
      ("Orders_Database", (70, 70)); ("attacker", (30, 10)) ].

Definition demo_edges : list (string * string * string * Z) :=
  [ ("attacker", "web:public_site", "network_connect", 2);
    ("attacker", "ws:employee_pc", "phishing_success", 1);
    ("ws:employee_pc", "user:employee", "logon", 1);
    ("user:employee", "share:common", "file_access", 2);
    ("share:common", "creds:leaked", "credential_discovery", 1);
    ("creds:leaked", "srv:jumpbox", "remote_logon", 2);
    ("srv:jumpbox", "srv:fileserver", "network_connect", 2);
    ("srv:fileserver", "HR_Database", "network_connect", 3);
    ("srv:fileserver", "Finance_Database", "network_connect", 3);
    ("web:public_site", "web:internal_app", "pivot_web", 3);
    ("web:internal_app", "srv:api", "service_call", 1);
    ("srv:api", "Orders_Database", "db_call", 2);
    ("web:internal_app", "Customer_Database", "sql_access", 2);
    ("srv:jumpbox", "srv:ad", "admin_session", 3);
    ("srv:ad", "user:admin", "privilege_escalation", 2);
    ("user:admin", "vault:secrets", "vault_access", 1);
    ("vault:secrets", "Logs", "log_access", 2);
    ("vault:secrets", "Finance_Database", "use_secrets", 1);
    ("Orders_Database", "srv:api", "db_creds_found", 2);
    ("Customer_Database", "web:internal_app", "app_secrets_reuse", 2);
    ("Finance_Database", "srv:fileserver", "service_account_reuse", 2);
    ("HR_Database", "srv:fileserver", "service_account_reuse", 2);
    ("Logs", "srv:ad", "admin_artifacts_found", 3) ].

(** [build_demo_graph]: the edges above in order, then the hub. *)
Definition build_demo_graph : Graph :=
  let g :=
    fold_left (λ g '(s, d, r, w), add_edge g s d r w) demo_edges empty_graph in
  let core := "net:core" in
  add_core_connectivity g ((other_nodes ++ assets) ++ [core]) core 30 30
    demo_overrides.

(** [main] once the two answers are read and stripped: an empty start means
    ["attacker"]. *)
Definition main (start_in target : string) : option MainOutcome :=
  let start := if decide (start_in = "") then "attacker" else start_in in
  main_query build_demo_graph assets start target.

(** The three-edge graph of the specification's example. *)
Definition example_graph : Graph :=
  add_edge (add_edge (add_edge empty_graph "A" "B" "ab" 1) "B" "C" "bc" 1)
           "A" "C" "ac" 5.

Local Close Scope string_scope.

(** * Specification vocabulary *)

(** ** The measure of the main loop *)

(** Out-edges of the keys that were not yet taken out of the queue for the
    first time: the pushes that can still happen. *)
Definition pending_in (V : gset string) (l : list (string * list Edge)) : nat :=
  sum_list_with (λ kv, if decide (kv.1 ∈ V) then 0%nat else length kv.2) l.

Definition pending (g : Graph) (V : gset string) : nat :=
  pending_in V (map_to_list (adj g)).

Definition loop_measure (g : Graph) (st : LoopState) : nat :=
  (length (s_pq st) + pending g (s_visited st))%nat.

(** ** Walks and their weight *)

(** [walk g s es t]: the stored edges [es] lead from [s] to [t], each one
    taken from the out-list of the node the previous one arrived at. *)
Inductive walk (g : Graph) : string → list Edge → string → Prop :=
| walk_nil s : walk g s [] s
| walk_cons s e es t :
    e ∈ neighbors g s → walk g (dst e) es t → walk g s (e :: es) t.

Definition reachable (g : Graph) (s t : string) : Prop :=
  ∃ es, walk g s es t.

Definition path_weight (es : list Edge) : Z :=
  foldr (λ e acc, weight e + acc) 0 es.

(** [d] is the least weight of a walk from [s] to [t]. *)
Definition shortest (g : Graph) (s t : string) (d : Z) : Prop :=
  (∃ es, walk g s es t ∧ path_weight es = d) ∧
  ∀ es, walk g s es t → d ≤ path_weight es.

(** The precondition of Dijkstra's algorithm. *)
Definition nonneg_weights (g : Graph) : Prop :=
  ∀ u e, e ∈ neighbors g u → 0 ≤ weight e.

(** Every edge is stored under its own source, as [add_edge] stores it. *)
Definition keyed (g : Graph) : Prop :=
  ∀ u e, e ∈ neighbors g u → src e = u.

(** Every destination of a stored edge is a key. *)
Definition dst_closed (g : Graph) : Prop :=
  ∀ u e, e ∈ neighbors g u → is_Some (adj g !! dst e).

(** An edge sequence that starts at [s], ends at [t] and whose consecutive
    edges share a node. *)
Fixpoint contiguous (s : string) (es : list Edge) (t : string) : Prop :=
  match es with
  | [] => s = t
  | e :: es' => src e = s ∧ contiguous (dst e) es' t
  end.

(** Checkers for the two conditions on a concrete graph. *)
Definition nonneg_weightsb (g : Graph) : bool :=
  forallb (λ kv : string * list Edge, forallb (λ e, 0 <=? weight e) kv.2)
          (map_to_list (adj g)).

Definition keyedb (g : Graph) : bool :=
  forallb (λ kv : string * list Edge,
             forallb (λ e, bool_decide (src e = kv.1)) kv.2)
          (map_to_list (adj g)).

(** ** Invariants of the main loop *)

(** The edges whose relaxation is behind us: those of the nodes in [V]. *)
Definition expanded (g : Graph) (V : gset string) (u : string) (e : Edge)
  : Prop :=
  u ∈ V ∧ e ∈ neighbors g u.

(** The part that holds for every weight: the queue knows every unfinished
    distance, never undercuts one, and every relaxed edge gave its
    destination a distance. *)
Record queue_inv (X : string → Edge → Prop) (start : string) (st : LoopState)
  : Prop := mkQueueInv {
  qi_queued : ∀ v d,
    s_dist st !! v = Some d → v ∉ s_visited st → (d, v) ∈ s_pq st;
  qi_bound : ∀ d v,
    (d, v) ∈ s_pq st → ∃ d', s_dist st !! v = Some d' ∧ d' ≤ d;
  qi_relaxed : ∀ u e, X u e → is_Some (s_dist st !! dst e);
  qi_start : is_Some (s_dist st !! start)
}.

(** [pred_chain prev start v l es]: following the parent links from [v] one
    passes the nodes [l], the last of which is [start]; [es] are the edges
    met, in forward order. *)
Inductive pred_chain (prev : gmap string (string * Edge)) (start : string)
  : string → list string → list Edge → Prop :=
| chain_start : pred_chain prev start start [start] []
| chain_step v par e l es :
    v ≠ start → prev !! v = Some (par, e) →
    pred_chain prev start par l es →
    pred_chain prev start v (v :: l) (es ++ [e]).

(** The part that needs non-negative weights. *)
Record dist_inv (g : Graph) (X : string → Edge → Prop) (start : string)
    (st : LoopState) : Prop := mkDistInv {
  di_queue : queue_inv X start st;
  di_start : s_dist st !! start = Some 0;
  di_real : ∀ v d,
    s_dist st !! v = Some d → ∃ es, walk g start es v ∧ path_weight es = d;
  di_opt : ∀ v,
    v ∈ s_visited st →
    ∃ d, s_dist st !! v = Some d ∧ ∀ es, walk g start es v → d ≤ path_weight es;
  di_relaxed : ∀ u e,
    X u e →
    u ∈ s_visited st ∧
    ∃ du dv, s_dist st !! u = Some du ∧ s_dist st !! dst e = Some dv ∧
             dv ≤ du + weight e;
  di_prev : ∀ v par e,
    s_prev st !! v = Some (par, e) →
    par ∈ s_visited st ∧ e ∈ neighbors g par ∧ dst e = v ∧ v ≠ start ∧
    ∃ dp, s_dist st !! par = Some dp ∧ s_dist st !! v = Some (dp + weight e);
  di_has_prev : ∀ v d,
    s_dist st !! v = Some d → v ≠ start → is_Some (s_prev st !! v);
  di_chain : ∀ v,
    v ∈ s_visited st →
    ∃ l es, pred_chain (s_prev st) start v l es ∧ ∀ x, x ∈ l → x ∈ s_visited st
}.

(** Every recorded distance belongs to a node that a walk arrives at. *)
Definition reach_inv (g : Graph) (start : string) (st : LoopState) : Prop :=
  ∀ v d, s_dist st !! v = Some d → reachable g start v.


(** ** Vocabulary of the further properties *)

(** The state after [n] turns of the [while] of [dijkstra]; [None] when the
    loop has ended before. *)
Fixpoint run_turns (n : nat) (g : Graph) (st : LoopState)
  : option LoopState :=
  match n with
  | O => Some st
  | S k =>
      match dijkstra_step g st with
      | None => None
      | Some st' => run_turns k g st'
      end
  end.

#[global] Instance cost_eq_dec : EqDecision Cost.
Proof. solve_decision. Defined.

(** A graph with a cycle of negative weight away from the start [S]. *)
Definition negative_cycle_graph : Graph :=
  add_edge (add_edge (add_edge empty_graph "S" "A" "sa" 0) "A" "B" "ab" 1)
           "B" "A" "ba" (-5).

(** * The program in binary64

    [Edge.weight] is declared [float] and [dist] starts at [0.0], so every
    sum of line 62 and every comparison of lines 57 and 63 is a binary64
    operation.  Module [B64] is the program with these operations
    (Rocq's primitive floats); the definitions above are the same program
    over the integers, where no sum rounds or overflows.  [heappop] takes
    out the first entry that compares equal to a smallest one; tuples are
    compared as Python compares them, the float first with [==] and [<],
    then the name. *)

Module B64.

Record Edge : Type := mkEdge {
  src : string;
  dst : string;
  Result : string;
  weight : float
}.

Record Graph : Type := mkGraph {
  adj : gmap string (list Edge)
}.

Definition empty_graph : Graph := mkGraph ∅.

Definition setdefault_nil (a : gmap string (list Edge)) (k : string)
  : gmap string (list Edge) :=
  match a !! k with
  | Some _ => a
  | None => <[k := []]> a
  end.

Definition add_edge (g : Graph) (s d r : string) (w : float) : Graph :=
  let a0 := setdefault_nil (adj g) s in
  let a1 := <[s := default [] (a0 !! s) ++ [mkEdge s d r w]]> a0 in
  mkGraph (setdefault_nil a1 d).

Definition neighbors (g : Graph) (node : string) : list Edge :=
  default [] (adj g !! node).

Definition nodes (g : Graph) : list string :=
  (map_to_list (adj g)).*1.

(** [d.get(v, float("inf"))]. *)
Definition dist_get (d : gmap string float) (v : string) : float :=
  default infinity (d !! v).

Definition entry : Type := float * string.

Definition entry_ltb (a b : entry) : bool :=
  PrimFloat.ltb a.1 b.1 || (PrimFloat.eqb a.1 b.1 && String.ltb a.2 b.2).

Definition entry_eqb (a b : entry) : bool :=
  PrimFloat.eqb a.1 b.1 && String.eqb a.2 b.2.

Fixpoint heap_min (m : entry) (l : list entry) : entry :=
  match l with
  | [] => m
  | x :: l' => heap_min (if entry_ltb x m then x else m) l'
  end.

Fixpoint remove_first (m : entry) (l : list entry) : list entry :=
  match l with
  | [] => []
  | x :: l' => if entry_eqb x m then l' else x :: remove_first m l'
  end.

Definition heappush (pq : list entry) (x : entry) : list entry := pq ++ [x].

Definition heappop (pq : list entry) : option (entry * list entry) :=
  match pq with
  | [] => None
  | x :: l => let m := heap_min x l in Some (m, remove_first m pq)
  end.

Record DijkstraResult : Type := mkResult {
  dist : gmap string float;
  prev : gmap string (string * Edge)
}.

Record LoopState : Type := mkState {
  s_dist : gmap string float;
  s_prev : gmap string (string * Edge);
  s_pq : list entry;
  s_visited : gset string
}.

(** Lines 46-49: [dist = {start: 0.0}], [pq = [(0.0, start)]]. *)
Definition init_state (start : string) : LoopState :=
  mkState {[start := 0%float]} ∅ [(0%float, start)] ∅.

(** Lines 61-66, with the sum and the comparison in binary64. *)
Definition relax_edge (u : string) (cur_d : float) (st : LoopState) (e : Edge)
  : LoopState :=
  let v := dst e in
  let nd := PrimFloat.add cur_d (weight e) in
  if PrimFloat.ltb nd (dist_get (s_dist st) v)
  then mkState (<[v := nd]> (s_dist st))
               (<[v := (u, e)]> (s_prev st))
               (heappush (s_pq st) (nd, v))
               (s_visited st)
  else st.

(** Lines 53-66. *)
Definition loop_body (g : Graph) (st : LoopState) (cur_d : float) (u : string)
    (pq' : list entry) : LoopState :=
  if decide (u ∈ s_visited st)
  then mkState (s_dist st) (s_prev st) pq' (s_visited st)
  else
    let visited' := {[u]} ∪ s_visited st in
    if negb (PrimFloat.eqb cur_d (dist_get (s_dist st) u))
    then mkState (s_dist st) (s_prev st) pq' visited'
    else fold_left (relax_edge u cur_d) (neighbors g u)
                   (mkState (s_dist st) (s_prev st) pq' visited').

Definition dijkstra_step (g : Graph) (st : LoopState) : option LoopState :=
  match heappop (s_pq st) with
  | None => None
  | Some ((cur_d, u), pq') => Some (loop_body g st cur_d u pq')
  end.

Fixpoint dijkstra_loop (fuel : nat) (g : Graph) (st : LoopState)
  : option LoopState :=
  match dijkstra_step g st with
  | None => Some st
  | Some st' =>
      match fuel with
      | O => None
      | S f => dijkstra_loop f g st'
      end
  end.

Definition dijkstra_fuel (fuel : nat) (g : Graph) (start : string)
  : option DijkstraResult :=
  match dijkstra_loop fuel g (init_state start) with
  | Some st => Some (mkResult (s_dist st) (s_prev st))
  | None => None
  end.

Definition edge_count (g : Graph) : nat :=
  sum_list_with (λ kv, length kv.2) (map_to_list (adj g)).

Definition dijkstra (g : Graph) (start : string) : option DijkstraResult :=
  dijkstra_fuel (S (edge_count g)) g start.

Fixpoint rebuild_loop (fuel : nat) (prev : gmap string (string * Edge))
    (start cur : string) (out_rev : list Edge) : option (list Edge) :=
  if decide (cur = start) then Some (rev out_rev)
  else
    match prev !! cur with
    | None => Some []
    | Some (parent, edge) =>
        match fuel with
        | O => None
        | S f => rebuild_loop f prev start parent (out_rev ++ [edge])
        end
    end.

Definition rebuild_path_fuel (fuel : nat) (prev : gmap string (string * Edge))
    (start target : string) : option (list Edge) :=
  if decide (target = start) then Some []
  else rebuild_loop fuel prev start target [].

Definition rebuild_path (prev : gmap string (string * Edge))
    (start target : string) : option (list Edge) :=
  rebuild_path_fuel (size prev) prev start target.

Definition connect_node (core_node : string)
    (default_to_core default_from_core : float)
    (overrides : gmap string (float * float))
    (g : Graph) (n : string) : Graph :=
  let '(to_w, from_w) :=
    default (default_to_core, default_from_core) (overrides !! n) in
  let g1 := add_edge g n core_node "route_to_core" to_w in
  add_edge g1 core_node n "route_from_core" from_w.

Definition add_core_connectivity (g : Graph) (nodes : list string)
    (core_node : string) (default_to_core default_from_core : float)
    (overrides : gmap string (float * float)) : Graph :=
  let g0 := add_edge g core_node core_node "noop" 0%float in
  fold_left
    (connect_node core_node default_to_core default_from_core overrides)
    nodes g0.

(** [list.sort(key=lambda x: x[1])]: the sort only asks [<]; an item is put
    in front of the first later item that is not smaller. *)
Fixpoint insert_by_cost (x : string * float) (l : list (string * float))
  : list (string * float) :=
  match l with
  | [] => [x]
  | y :: l' =>
      if PrimFloat.ltb y.2 x.2 then y :: insert_by_cost x l' else x :: y :: l'
  end.

Definition sort_by_cost (l : list (string * float)) : list (string * float) :=
  foldr insert_by_cost [] l.

Definition rank (d : gmap string float) (targets : list string)
  : list (string * float) :=
  sort_by_cost (map (λ a, (a, dist_get d a)) targets).

Inductive MainOutcome : Type :=
| StartNotInGraph (start : string)
| TargetNotInGraph (target : string)
| PathFound (cost : float) (path : list Edge) (ranked : list (string * float)).

Definition main_query (g : Graph) (assets : list string)
    (start target : string) : option MainOutcome :=
  let all_nodes : gset string := list_to_set (nodes g) in
  if decide (start ∉ all_nodes) then Some (StartNotInGraph start)
  else if decide (target ∉ all_nodes) then Some (TargetNotInGraph target)
  else
    match dijkstra g start with
    | None => None
    | Some res =>
        let cost := dist_get (dist res) target in
        match rebuild_path (prev res) start target with
        | None => None
        | Some path => Some (PathFound cost path (rank (dist res) assets))
        end
    end.

(** Walks, and what the specification asks of the weights. *)
Inductive walk (g : Graph) : string → list Edge → string → Prop :=
| walk_nil s : walk g s [] s
| walk_cons s e es t :
    e ∈ neighbors g s → walk g (dst e) es t → walk g s (e :: es) t.

Definition reachable (g : Graph) (s t : string) : Prop :=
  ∃ es, walk g s es t.

Definition nonneg_weights (g : Graph) : Prop :=
  ∀ u e, e ∈ neighbors g u → PrimFloat.leb 0%float (weight e) = true.

Definition nonneg_weightsb (g : Graph) : bool :=
  forallb (λ kv : string * list Edge,
             forallb (λ e, PrimFloat.leb 0%float (weight e)) kv.2)
          (map_to_list (adj g)).

(** Two weights of [2^1023] overflow when added; the node [U] is a key that
    nothing leads to. *)
Definition overflow_graph : Graph :=
  add_edge (add_edge (add_edge empty_graph "s" "a" "sa" 0x1p1023%float)
                     "a" "b" "ab" 0x1p1023%float)
           "U" "U" "uu" 0%float.

(** Above [2^53] the sums [2^53 + 3 + 3] round up twice. *)
Definition rounding_graph : Graph :=
  add_edge (add_edge (add_edge empty_graph "a" "b" "ab" 0x1p53%float)
                     "b" "m" "bm" 3%float)
           "m" "c" "mc" 3%float.

End B64.

(** ** Integer graphs as binary64 graphs *)

(** The float written with the binary digits of a positive integer. *)
Fixpoint pos2F (p : positive) : float :=
  match p with
  | xH => 1%float
  | xO p' => PrimFloat.mul 2%float (pos2F p')
  | xI p' => PrimFloat.add (PrimFloat.mul 2%float (pos2F p')) 1%float
  end.

Definition Z2F (z : Z) : float :=
  match z with
  | Z0 => 0%float
  | Zpos p => pos2F p
  | Zneg p => PrimFloat.opp (pos2F p)
  end.

Definition lift_edge (e : Edge) : B64.Edge :=
  B64.mkEdge (src e) (dst e) (Result e) (Z2F (weight e)).

Definition lift_graph (g : Graph) : B64.Graph :=
  B64.mkGraph (fmap (M := list) lift_edge <$> adj g).

Definition lift_entry (x : entry) : B64.entry := (Z2F x.1, x.2).

Definition lift_parent (p : string * Edge) : string * B64.Edge :=
  (p.1, lift_edge p.2).

Definition lift_state (st : LoopState) : B64.LoopState :=
  B64.mkState (Z2F <$> s_dist st) (lift_parent <$> s_prev st)
              (lift_entry <$> s_pq st) (s_visited st).

Definition lift_result (r : DijkstraResult) : B64.DijkstraResult :=
  B64.mkResult (Z2F <$> dist r) (lift_parent <$> prev r).

Definition lift_cost (c : Cost) : float :=
  match c with
  | Finite z => Z2F z
  | Infinity => infinity
  end.



(** Binary64 adds and compares the integers from 0 to [B] without error.
    IEEE 754 gives this for every [B] up to [2^53]. *)
Record exact_upto (B : Z) : Prop := mkExact {
  ex_add : ∀ a b, 0 ≤ a → 0 ≤ b → a + b ≤ B →
    PrimFloat.add (Z2F a) (Z2F b) = Z2F (a + b);
  ex_ltb : ∀ a b, 0 ≤ a ≤ B → 0 ≤ b ≤ B →
    PrimFloat.ltb (Z2F a) (Z2F b) = (a <? b);
  ex_eqb : ∀ a b, 0 ≤ a ≤ B → 0 ≤ b ≤ B →
    PrimFloat.eqb (Z2F a) (Z2F b) = (a =? b);
  ex_lt_inf : ∀ a, 0 ≤ a ≤ B → PrimFloat.ltb (Z2F a) infinity = true;
  ex_inf_lt : ∀ a, 0 ≤ a ≤ B → PrimFloat.ltb infinity (Z2F a) = false;
  ex_eq_inf : ∀ a, 0 ≤ a ≤ B → PrimFloat.eqb (Z2F a) infinity = false
}.

(** Every stored weight is an integer from 0 to [W]. *)
Definition weights_in (g : Graph) (W : Z) : Prop :=
  ∀ u e, e ∈ neighbors g u → 0 ≤ weight e ≤ W.

Definition weights_inb (g : Graph) (W : Z) : bool :=
  forallb (λ kv : string * list Edge,
             forallb (λ e, (0 <=? weight e) && (weight e <=? W)) kv.2)
          (map_to_list (adj g)).

(** With weights up to [W], the numbers that a run of [dijkstra] forms stay
    below this bound: every turn of the loop adds at most one weight. *)
Definition sum_bound (g : Graph) (W : Z) : Z :=
  (Z.of_nat (edge_count g) + 2) * W.

(** All recorded and queued distances are integers from 0 to [K]. *)
Definition bounded (K : Z) (st : LoopState) : Prop :=
  (∀ v d, s_dist st !! v = Some d → 0 ≤ d ≤ K) ∧
  (∀ x, x ∈ s_pq st → 0 ≤ x.1 ≤ K).

(** Queue entries and costs whose numbers are integers from 0 to [B]. *)
Definition entries_in (B : Z) (l : list entry) : Prop :=
  ∀ x, x ∈ l → 0 ≤ x.1 ≤ B.


(** * Properties *)

(** ** The priority queue *)

Section Heap.

Implicit Types (m x : entry) (l pq : list entry).

Lemma entry_ltb_fst x m : entry_ltb x m = true → x.1 ≤ m.1.
Proof.
  unfold entry_ltb. intros H.
  apply orb_true_iff in H as [H | H].
  - apply Z.ltb_lt in H. lia.
  - apply andb_true_iff in H as [H _]. apply Z.eqb_eq in H. lia.
Qed.

Lemma entry_ltb_false_fst x m : entry_ltb x m = false → m.1 ≤ x.1.
Proof.
  unfold entry_ltb. intros H.
  apply orb_false_iff in H as [H _]. apply Z.ltb_ge in H. lia.
Qed.

Lemma heap_min_in m l : heap_min m l ∈ m :: l.
Proof.
  revert m. induction l as [|x l IH]; intros m; simpl.
  - left.
  - pose proof (IH (if entry_ltb x m then x else m)) as H.
    destruct (entry_ltb x m).
    + by right.
    + apply elem_of_cons in H as [->|H]; [left|right; by right].
Qed.

Lemma heap_min_le m l x : x ∈ m :: l → (heap_min m l).1 ≤ x.1.
Proof.
  revert m x. induction l as [|y l IH]; intros m x Hx; simpl.
  - apply list_elem_of_singleton in Hx. subst. lia.
  - pose proof (IH (if entry_ltb y m then y else m)) as IH'.
    destruct (entry_ltb y m) eqn:E.
    + apply entry_ltb_fst in E.
      apply elem_of_cons in Hx as [-> | Hx].
      * specialize (IH' y ltac:(left)). lia.
      * apply IH'. exact Hx.
    + apply entry_ltb_false_fst in E.
      apply elem_of_cons in Hx as [-> | Hx].
      * apply IH'. left.
      * apply elem_of_cons in Hx as [-> | Hx].
        -- specialize (IH' m ltac:(left)). lia.
        -- apply IH'. right. exact Hx.
Qed.

Lemma remove_first_length m l :
  m ∈ l → S (length (remove_first m l)) = length l.
Proof.
  induction l as [|x l IH]; intros Hm; simpl.
  - by apply elem_of_nil in Hm.
  - destruct (decide (x = m)) as [->|Hne]; [done|].
    simpl. f_equal. apply IH.
    apply elem_of_cons in Hm as [->|Hm]; [done|exact Hm].
Qed.

Lemma remove_first_keeps m l x : x ∈ l → x = m ∨ x ∈ remove_first m l.
Proof.
  induction l as [|y l IH]; intros Hx; simpl.
  - by apply elem_of_nil in Hx.
  - destruct (decide (y = m)) as [->|Hne].
    + apply elem_of_cons in Hx as [->|Hx]; [by left|by right].
    + apply elem_of_cons in Hx as [->|Hx].
      * right. left.
      * destruct (IH Hx) as [->|H]; [by left|]. right. by right.
Qed.

Lemma remove_first_sub m l x : x ∈ remove_first m l → x ∈ l.
Proof.
  induction l as [|y l IH]; simpl; [done|].
  destruct (decide (y = m)) as [->|Hne]; intros Hx.
  - by right.
  - apply elem_of_cons in Hx as [->|Hx]; [left|right; auto].
Qed.

(** What the loop uses of [heappop]: the popped entry was queued, no queued
    entry has a smaller distance, exactly one entry left the queue. *)
Lemma heappop_spec pq m pq' :
  heappop pq = Some (m, pq') →
  m ∈ pq ∧ (∀ x, x ∈ pq → m.1 ≤ x.1) ∧ S (length pq') = length pq ∧
  (∀ x, x ∈ pq → x = m ∨ x ∈ pq') ∧ (∀ x, x ∈ pq' → x ∈ pq).
Proof.
  destruct pq as [|y l]; simpl; [done|].
  intros [= <- <-].
  pose proof (heap_min_in y l) as Hin.
  split_and!.
  - exact Hin.
  - intros x Hx. by apply heap_min_le.
  - apply (remove_first_length _ (y :: l)), Hin.
  - intros x Hx. by apply (remove_first_keeps _ (y :: l)).
  - intros x Hx. by apply (remove_first_sub (heap_min y l) (y :: l)).
Qed.

Lemma heappop_None pq : heappop pq = None ↔ pq = [].
Proof. destruct pq; simpl; split; congruence. Qed.

End Heap.

(** ** Termination of the main loop *)

Section Termination.

Local Open Scope nat_scope.

Variable g : Graph.

Lemma pending_in_mono u V l : pending_in ({[u]} ∪ V) l ≤ pending_in V l.
Proof.
  induction l as [|[k es] l IH]; simpl; [lia|].
  repeat case_decide; try lia. set_solver.
Qed.

Lemma pending_in_visit u es V l :
  (u, es) ∈ l → u ∉ V →
  pending_in ({[u]} ∪ V) l + length es ≤ pending_in V l.
Proof.
  intros Hin Hu. induction l as [|[k es'] l IH]; simpl.
  - by apply elem_of_nil in Hin.
  - apply elem_of_cons in Hin as [[= <- <-]|Hin].
    + pose proof (pending_in_mono u V l).
      repeat case_decide; try lia; set_solver.
    + specialize (IH Hin).
      repeat case_decide; try lia. set_solver.
Qed.

Lemma pending_visit u V :
  u ∉ V → pending g ({[u]} ∪ V) + length (neighbors g u) ≤ pending g V.
Proof.
  intros Hu. unfold pending, neighbors.
  destruct (adj g !! u) as [es|] eqn:E; simpl.
  - apply pending_in_visit; [|done]. by apply elem_of_map_to_list.
  - pose proof (pending_in_mono u V (map_to_list (adj g))). lia.
Qed.

Lemma pending_empty : pending g ∅ = edge_count g.
Proof.
  unfold pending, edge_count.
  induction (map_to_list (adj g)) as [|[k es] l IH]; simpl; [done|].
  rewrite <- IH. case_decide; [set_solver|done].
Qed.

(** The inner [for] only appends to the queue, at most one entry per edge,
    and leaves the visited set alone. *)
Lemma relax_fold_pushes u cur_d es st :
  ∃ pushed,
    s_pq (fold_left (relax_edge u cur_d) es st) = s_pq st ++ pushed ∧
    length pushed ≤ length es ∧
    s_visited (fold_left (relax_edge u cur_d) es st) = s_visited st.
Proof.
  revert st. induction es as [|e es IH]; intros st; simpl.
  - exists []. by rewrite app_nil_r.
  - destruct (IH (relax_edge u cur_d st e)) as (pushed & Hpq & Hlen & Hvis).
    rewrite Hpq, Hvis. unfold relax_edge.
    destruct (cost_ltb _ _); simpl.
    + exists (((cur_d + weight e)%Z, dst e) :: pushed).
      unfold heappush. rewrite <- app_assoc. simpl. split_and!; [done|lia|done].
    + exists pushed. split_and!; [done|lia|done].
Qed.

(** One turn of the loop, seen from the queue: a node that was seen before
    pushes nothing; a new node joins the visited set and pushes at most one
    entry per out-edge. *)
Lemma loop_body_pushes st cur_d u pq' :
  let st' := loop_body g st cur_d u pq' in
  (u ∈ s_visited st → s_pq st' = pq' ∧ s_visited st' = s_visited st) ∧
  (u ∉ s_visited st →
     s_visited st' = {[u]} ∪ s_visited st ∧
     ∃ pushed, s_pq st' = pq' ++ pushed ∧
               length pushed ≤ length (neighbors g u)).
Proof.
  unfold loop_body. simpl. split; intros Hu.
  - by rewrite decide_True.
  - rewrite decide_False by done.
    destruct (negb _); simpl.
    + split; [done|]. exists []. rewrite app_nil_r. split; [done|simpl; lia].
    + destruct (relax_fold_pushes u cur_d (neighbors g u)
                  (mkState (s_dist st) (s_prev st) pq' ({[u]} ∪ s_visited st)))
        as (pushed & Hpq & Hlen & Hvis).
      split; [exact Hvis|]. exists pushed. by split.
Qed.

Lemma step_measure st st' :
  dijkstra_step g st = Some st' → loop_measure g st' < loop_measure g st.
Proof.
  unfold dijkstra_step.
  destruct (heappop (s_pq st)) as [[[cur_d u] pq']|] eqn:Hpop; [|done].
  intros [= <-].
  apply heappop_spec in Hpop as (_ & _ & Hlen & _).
  destruct (loop_body_pushes st cur_d u pq') as [Hseen Hnew].
  unfold loop_measure.
  destruct (decide (u ∈ s_visited st)) as [Hu|Hu].
  - destruct (Hseen Hu) as [-> ->]. lia.
  - destruct (Hnew Hu) as (-> & pushed & -> & Hp).
    pose proof (pending_visit u (s_visited st) Hu).
    rewrite length_app. lia.
Qed.

Lemma loop_total fuel st :
  loop_measure g st ≤ fuel → is_Some (dijkstra_loop fuel g st).
Proof.
  revert st. induction fuel as [|f IH]; intros st Hm; simpl.
  - destruct (dijkstra_step g st) as [st'|] eqn:E; [|by eexists].
    apply step_measure in E. lia.
  - destruct (dijkstra_step g st) as [st'|] eqn:E; [|by eexists].
    apply IH. apply step_measure in E. lia.
Qed.

Lemma loop_fuel_mono fuel fuel' st st' :
  dijkstra_loop fuel g st = Some st' → fuel ≤ fuel' →
  dijkstra_loop fuel' g st = Some st'.
Proof.
  revert fuel' st. induction fuel as [|f IH]; intros fuel' st; simpl.
  - destruct (dijkstra_step g st) as [st1|] eqn:E; [done|].
    intros [= <-] _. destruct fuel'; simpl; by rewrite E.
  - destruct (dijkstra_step g st) as [st1|] eqn:E.
    + intros H Hle. destruct fuel' as [|f']; [lia|]. simpl. rewrite E.
      apply IH; [done|lia].
    + intros [= <-] _. destruct fuel'; simpl; by rewrite E.
Qed.

Lemma loop_done fuel st st' :
  dijkstra_loop fuel g st = Some st' → s_pq st' = [].
Proof.
  revert st. induction fuel as [|f IH]; intros st; simpl.
  - destruct (dijkstra_step g st) as [st1|] eqn:E; [done|].
    intros [= <-]. unfold dijkstra_step in E.
    destruct (heappop (s_pq st)) as [[[??]?]|] eqn:Hp; [done|].
    by apply heappop_None.
  - destruct (dijkstra_step g st) as [st1|] eqn:E; [by apply IH|].
    intros [= <-]. unfold dijkstra_step in E.
    destruct (heappop (s_pq st)) as [[[??]?]|] eqn:Hp; [done|].
    by apply heappop_None.
Qed.

Lemma init_measure start :
  loop_measure g (init_state start) = S (edge_count g).
Proof. unfold loop_measure. simpl. by rewrite pending_empty. Qed.

End Termination.

Lemma dijkstra_total g start : is_Some (dijkstra g start).
Proof.
  unfold dijkstra, dijkstra_fuel.
  destruct (loop_total g (S (edge_count g)) (init_state start)) as [st ->].
  - by rewrite init_measure.
  - by eexists.
Qed.

Lemma dijkstra_fuel_mono fuel fuel' g start r :
  dijkstra_fuel fuel g start = Some r → (fuel ≤ fuel')%nat →
  dijkstra_fuel fuel' g start = Some r.
Proof.
  unfold dijkstra_fuel.
  destruct (dijkstra_loop fuel g (init_state start)) as [st|] eqn:E; [|done].
  intros [= <-] Hle. by rewrite (loop_fuel_mono g _ _ _ _ E Hle).
Qed.

(** ** Walks *)

Section Walks.

Variable g : Graph.

Lemma walk_app s es1 m es2 t :
  walk g s es1 m → walk g m es2 t → walk g s (es1 ++ es2) t.
Proof.
  induction 1 as [s|s e es m He Hw IH]; simpl; intros H2; [done|].
  constructor; auto.
Qed.

Lemma walk_snoc s es u e :
  walk g s es u → e ∈ neighbors g u → walk g s (es ++ [e]) (dst e).
Proof.
  intros Hw He. eapply walk_app; [exact Hw|].
  constructor; [done|constructor].
Qed.

Lemma path_weight_app es1 es2 :
  path_weight (es1 ++ es2) = path_weight es1 + path_weight es2.
Proof.
  induction es1 as [|e es1 IH]; simpl; [done|].
  fold (path_weight (es1 ++ es2)). fold (path_weight es1). lia.
Qed.

Lemma path_weight_snoc es e :
  path_weight (es ++ [e]) = path_weight es + weight e.
Proof. rewrite path_weight_app. simpl. lia. Qed.

Lemma walk_nonneg s es t :
  nonneg_weights g → walk g s es t → 0 ≤ path_weight es.
Proof.
  intros Hnn. induction 1 as [s|s e es t He Hw IH]; simpl; [done|].
  fold (path_weight es). specialize (Hnn _ _ He). lia.
Qed.

Lemma walk_contiguous s es t :
  keyed g → walk g s es t → contiguous s es t.
Proof.
  intros Hk. induction 1 as [s|s e es t He Hw IH]; simpl; [done|].
  split; [by apply Hk|done].
Qed.

End Walks.

(** ** The loop invariant that holds for every weight *)

Section QueueInvariant.

Variable g : Graph.
Variable start : string.

Lemma queue_inv_weaken (X X' : string → Edge → Prop) st :
  (∀ u e, X' u e → X u e) → queue_inv X start st → queue_inv X' start st.
Proof. intros HX [H1 H2 H3 H4]. constructor; eauto. Qed.

Lemma queue_inv_init : queue_inv (expanded g ∅) start (init_state start).
Proof.
  constructor; simpl.
  - intros v d Hv _. apply lookup_singleton_Some in Hv as [<- <-]. left.
  - intros d v Hin. apply list_elem_of_singleton in Hin as [= -> ->].
    exists 0. by rewrite lookup_singleton_eq.
  - intros u e [Hu _]. set_solver.
  - rewrite lookup_singleton_eq. by eexists.
Qed.

Lemma cost_ltb_Finite nd d v :
  cost_ltb (Finite nd) (dist_get d v) = true →
  d !! v = None ∨ ∃ dv, d !! v = Some dv ∧ nd < dv.
Proof.
  unfold dist_get. destruct (d !! v) as [dv|]; simpl; [|by left].
  intros H%Z.ltb_lt. right. eauto.
Qed.

Lemma cost_ltb_Finite_false nd d v :
  cost_ltb (Finite nd) (dist_get d v) = false →
  ∃ dv, d !! v = Some dv ∧ dv ≤ nd.
Proof.
  unfold dist_get. destruct (d !! v) as [dv|]; simpl; [|done].
  intros H%Z.ltb_ge. eauto.
Qed.

(** Relaxing any edge keeps the queue invariant and settles that edge. *)
Lemma relax_edge_queue_inv X u cur_d st e :
  queue_inv X start st →
  queue_inv (λ u' e', X u' e' ∨ (u' = u ∧ e' = e)) start
            (relax_edge u cur_d st e).
Proof.
  intros [H1 H2 H3 H4]. unfold relax_edge.
  destruct (cost_ltb _ _) eqn:E.
  - apply cost_ltb_Finite in E.
    constructor; simpl; unfold heappush.
    + intros v d Hv Hnv. apply elem_of_app.
      destruct (decide (v = dst e)) as [->|Hne].
      * rewrite lookup_insert_eq in Hv. injection Hv as <-. right. left.
      * rewrite lookup_insert_ne in Hv by done. left. by apply H1.
    + intros d v Hin. apply elem_of_app in Hin as [Hin|Hin].
      * destruct (H2 _ _ Hin) as (d' & Hd' & Hle).
        destruct (decide (v = dst e)) as [->|Hne].
        -- rewrite lookup_insert_eq. eexists; split; [done|].
           destruct E as [E|(dv & E & Hlt)]; [congruence|].
           rewrite Hd' in E. injection E as <-. lia.
        -- rewrite lookup_insert_ne by done. eauto.
      * apply list_elem_of_singleton in Hin as [= -> ->].
        rewrite lookup_insert_eq. eexists; split; [done|lia].
    + intros u' e' [HX|[-> ->]].
      * destruct (decide (dst e' = dst e)) as [->|Hne].
        -- rewrite lookup_insert_eq. by eexists.
        -- rewrite lookup_insert_ne by done. by apply (H3 u').
      * rewrite lookup_insert_eq. by eexists.
    + destruct (decide (start = dst e)) as [->|Hne].
      * rewrite lookup_insert_eq. by eexists.
      * rewrite lookup_insert_ne by done. exact H4.
  - apply cost_ltb_Finite_false in E as (dv & E & _).
    constructor; auto.
    intros u' e' [HX|[-> ->]]; [by apply (H3 u')|]. by eexists.
Qed.

Lemma relax_fold_queue_inv X u cur_d es st :
  queue_inv X start st →
  queue_inv (λ u' e', X u' e' ∨ (u' = u ∧ e' ∈ es)) start
            (fold_left (relax_edge u cur_d) es st).
Proof.
  revert X st. induction es as [|e es IH]; intros X st Hinv; simpl.
  - eapply queue_inv_weaken; [|exact Hinv].
    intros u' e' [H|[_ H]]; [done|]. by apply elem_of_nil in H.
  - eapply queue_inv_weaken; [|apply IH, relax_edge_queue_inv, Hinv].
    simpl. intros u' e' [H|[-> H]]; [by left; left|].
    apply elem_of_cons in H as [->|H]; [left; right|right]; done.
Qed.

(** A node popped for the first time carries its current distance, so the
    guard of line 57 lets it through. *)
Lemma first_pop_current X st cur_d u pq' :
  queue_inv X start st →
  heappop (s_pq st) = Some ((cur_d, u), pq') →
  u ∉ s_visited st →
  s_dist st !! u = Some cur_d.
Proof.
  intros [H1 H2 _ _] Hpop Hu.
  apply heappop_spec in Hpop as (Hin & Hmin & _).
  destruct (H2 _ _ Hin) as (d' & Hd' & Hle).
  specialize (Hmin _ (H1 _ _ Hd' Hu)). simpl in Hmin.
  rewrite Hd'. f_equal. lia.
Qed.

Lemma cost_eqb_current d u cur_d :
  d !! u = Some cur_d →
  negb (cost_eqb (Finite cur_d) (dist_get d u)) = false.
Proof.
  intros H. unfold dist_get. rewrite H. simpl. by rewrite Z.eqb_refl.
Qed.

(** The state right after a pop: the popped node seen before, or new. *)
Lemma pop_seen_queue_inv X st cur_d u pq' :
  queue_inv X start st →
  heappop (s_pq st) = Some ((cur_d, u), pq') →
  u ∈ s_visited st →
  queue_inv X start (mkState (s_dist st) (s_prev st) pq' (s_visited st)).
Proof.
  intros [H1 H2 H3 H4] Hpop Hu.
  apply heappop_spec in Hpop as (Hin & _ & _ & Hkeep & Hsub).
  constructor; simpl; auto.
  intros v d Hv Hnv. destruct (Hkeep _ (H1 _ _ Hv Hnv)) as [[= -> ->]|H]; done.
Qed.

Lemma pop_new_queue_inv X st cur_d u pq' :
  queue_inv X start st →
  heappop (s_pq st) = Some ((cur_d, u), pq') →
  queue_inv X start
    (mkState (s_dist st) (s_prev st) pq' ({[u]} ∪ s_visited st)).
Proof.
  intros [H1 H2 H3 H4] Hpop.
  apply heappop_spec in Hpop as (Hin & _ & _ & Hkeep & Hsub).
  constructor; simpl; auto.
  intros v d Hv Hnv.
  destruct (Hkeep _ (H1 _ _ Hv ltac:(set_solver))) as [[= -> ->]|H];
    [set_solver|done].
Qed.

Lemma expanded_visit V u u' e' :
  expanded g ({[u]} ∪ V) u' e' →
  expanded g V u' e' ∨ (u' = u ∧ e' ∈ neighbors g u).
Proof.
  unfold expanded. intros [Hu' He'].
  apply elem_of_union in Hu' as [->%elem_of_singleton|Hu']; [right|left]; done.
Qed.

Lemma loop_body_queue_inv st cur_d u pq' :
  queue_inv (expanded g (s_visited st)) start st →
  heappop (s_pq st) = Some ((cur_d, u), pq') →
  let st' := loop_body g st cur_d u pq' in
  queue_inv (expanded g (s_visited st')) start st'.
Proof.
  intros Hinv Hpop. simpl.
  pose proof (first_pop_current _ _ _ _ _ Hinv Hpop) as Hcur.
  unfold loop_body.
  destruct (decide (u ∈ s_visited st)) as [Hu|Hu].
  - by eapply pop_seen_queue_inv.
  - rewrite (cost_eqb_current _ _ _ (Hcur Hu)).
    set (st1 := mkState _ _ _ _).
    destruct (relax_fold_pushes u cur_d (neighbors g u) st1) as (_ & _ & _ & ->).
    eapply queue_inv_weaken;
      [|apply (relax_fold_queue_inv (expanded g (s_visited st)) u cur_d
                 (neighbors g u)), (pop_new_queue_inv _ _ _ _ _ Hinv Hpop)].
    apply expanded_visit.
Qed.

Lemma loop_queue_inv fuel st st' :
  queue_inv (expanded g (s_visited st)) start st →
  dijkstra_loop fuel g st = Some st' →
  queue_inv (expanded g (s_visited st')) start st'.
Proof.
  revert st. induction fuel as [|f IH]; intros st Hinv; simpl;
    unfold dijkstra_step;
    destruct (heappop (s_pq st)) as [[[cur_d u] pq']|] eqn:Hpop;
    try done; try (by intros [= <-]).
  intros H. eapply IH; [|exact H]. by apply loop_body_queue_inv.
Qed.

(** When the queue is empty every node a walk from [start] arrives at has a
    distance. *)
Lemma queue_inv_done_reachable st es v :
  queue_inv (expanded g (s_visited st)) start st →
  s_pq st = [] →
  walk g start es v → is_Some (s_dist st !! v).
Proof.
  intros [H1 H2 H3 H4] Hpq Hw.
  induction Hw as [s|s e es t He Hw IH]; [done|].
  apply IH. destruct H4 as [d Hd]. apply (H3 s). split; [|done].
  destruct (decide (s ∈ s_visited st)) as [|Hn]; [done|].
  specialize (H1 _ _ Hd Hn). rewrite Hpq in H1. by apply elem_of_nil in H1.
Qed.

End QueueInvariant.

(** ** The loop invariant under non-negative weights *)

Section DistInvariant.

Variable g : Graph.
Variable start : string.
Hypothesis Hnn : nonneg_weights g.

Lemma dist_inv_weaken (X X' : string → Edge → Prop) st :
  (∀ u e, X' u e → X u e) → dist_inv g X start st → dist_inv g X' start st.
Proof.
  intros HX [HQ D1 D2 D3 D4 P1 P2 P3].
  constructor; eauto using queue_inv_weaken.
Qed.

Lemma dist_inv_init : dist_inv g (expanded g ∅) start (init_state start).
Proof.
  constructor; simpl.
  - apply queue_inv_init.
  - apply lookup_singleton_eq.
  - intros v d Hv. apply lookup_singleton_Some in Hv as [<- <-].
    exists []. split; [constructor|done].
  - set_solver.
  - intros u e [Hu _]. set_solver.
  - intros v par e H. by rewrite lookup_empty in H.
  - intros v d Hv Hne. by apply lookup_singleton_Some in Hv as [<- _].
  - set_solver.
Qed.

Lemma pred_chain_insert prev v pe x l es :
  pred_chain prev start x l es → v ∉ l →
  pred_chain (<[v := pe]> prev) start x l es.
Proof.
  induction 1 as [|x par e l es Hx Hp Hc IH]; intros Hv; [constructor|].
  apply not_elem_of_cons in Hv as [Hvx Hvl].
  econstructor; [done| |by apply IH].
  by rewrite lookup_insert_ne.
Qed.

(** Relaxing an out-edge of a settled node [u]. *)
Lemma relax_edge_dist_inv X u cur_d st e :
  dist_inv g X start st →
  u ∈ s_visited st → s_dist st !! u = Some cur_d → e ∈ neighbors g u →
  let st' := relax_edge u cur_d st e in
  dist_inv g (λ u' e', X u' e' ∨ (u' = u ∧ e' = e)) start st' ∧
  s_dist st' !! u = Some cur_d ∧ s_visited st' = s_visited st.
Proof.
  intros Hinv Hu Hdu He. simpl.
  pose proof Hinv as [HQ D1 D2 D3 D4 P1 P2 P3].
  destruct (D2 _ _ Hdu) as (pu & Hwu & Hwt).
  pose proof (walk_snoc g _ _ _ _ Hwu He) as Hwalk.
  pose proof (path_weight_snoc pu e) as Hpw. rewrite Hwt in Hpw.
  pose proof (relax_edge_queue_inv start X u cur_d st e HQ) as HQ'.
  unfold relax_edge in *.
  destruct (cost_ltb _ _) eqn:E.
  - apply cost_ltb_Finite in E.
    assert (dst e ∉ s_visited st) as Hv.
    { intros Hv. destruct (D3 _ Hv) as (d & Hd & Hopt).
      specialize (Hopt _ Hwalk).
      destruct E as [E|(dv & E & Hlt)]; [congruence|].
      rewrite Hd in E. injection E as <-. lia. }
    assert (dst e ≠ start) as Hs.
    { intros Hs. rewrite Hs in E.
      destruct E as [E|(dv & E & Hlt)]; [congruence|].
      rewrite D1 in E. injection E as <-.
      pose proof (walk_nonneg g _ _ _ Hnn Hwalk). lia. }
    assert (u ≠ dst e) as Hne by (by intros ->).
    split_and!; simpl; [|by rewrite lookup_insert_ne|done].
    constructor; simpl.
    + exact HQ'.
    + by rewrite lookup_insert_ne.
    + intros v d Hvd. destruct (decide (v = dst e)) as [->|Hvne].
      * rewrite lookup_insert_eq in Hvd. injection Hvd as <-.
        exists (pu ++ [e]). by split.
      * rewrite lookup_insert_ne in Hvd by done. by apply D2.
    + intros v Hvis. rewrite lookup_insert_ne by (by intros <-). by apply D3.
    + intros u' e' [HX|[-> ->]].
      * destruct (D4 _ _ HX) as (Hu' & du & dv & Hdu' & Hdv & Hle).
        split; [done|]. exists du.
        rewrite (lookup_insert_ne _ (dst e) u') by (by intros <-).
        destruct (decide (dst e' = dst e)) as [Heq|Hdne].
        -- exists (cur_d + weight e). rewrite Heq, lookup_insert_eq.
           split_and!; [done|done|].
           rewrite Heq in Hdv.
           destruct E as [E|(dv' & E & Hlt)]; [congruence|].
           rewrite Hdv in E. injection E as <-. lia.
        -- exists dv. by rewrite lookup_insert_ne.
      * split; [done|]. exists cur_d, (cur_d + weight e).
        rewrite lookup_insert_ne by (by intros <-).
        rewrite lookup_insert_eq. split_and!; [done|done|lia].
    + intros v par e0 Hprev. destruct (decide (v = dst e)) as [->|Hvne].
      * rewrite lookup_insert_eq in Hprev. injection Hprev as <- <-.
        split_and!; [done|done|done|done|]. exists cur_d.
        rewrite lookup_insert_ne by (by intros <-).
        by rewrite lookup_insert_eq.
      * rewrite lookup_insert_ne in Hprev by done.
        destruct (P1 _ _ _ Hprev) as (Hpar & He0 & Hdst & Hvs & dp & Hdp & Hdv).
        split_and!; [done|done|done|done|]. exists dp.
        rewrite lookup_insert_ne by (by intros <-).
        by rewrite lookup_insert_ne.
    + intros v d Hvd Hvs. destruct (decide (v = dst e)) as [->|Hvne].
      * rewrite lookup_insert_eq. by eexists.
      * rewrite lookup_insert_ne in Hvd by done.
        rewrite lookup_insert_ne by done. by eapply P2.
    + intros v Hvis. destruct (P3 _ Hvis) as (l & es & Hch & Hall).
      exists l, es. split; [|done].
      apply pred_chain_insert; [done|]. intros Hin. by apply Hall in Hin.
  - apply cost_ltb_Finite_false in E as (dv & Hdv & Hle).
    split_and!; [|done|done].
    constructor; auto.
    intros u' e' [HX|[-> ->]]; [by apply D4|].
    split; [done|]. exists cur_d, dv. split_and!; [done|done|lia].
Qed.

Lemma relax_fold_dist_inv X u cur_d es st :
  dist_inv g X start st →
  u ∈ s_visited st → s_dist st !! u = Some cur_d →
  (∀ e, e ∈ es → e ∈ neighbors g u) →
  dist_inv g (λ u' e', X u' e' ∨ (u' = u ∧ e' ∈ es)) start
           (fold_left (relax_edge u cur_d) es st).
Proof.
  revert X st. induction es as [|e es IH]; intros X st Hinv Hu Hdu Hes; simpl.
  - eapply dist_inv_weaken; [|exact Hinv].
    intros u' e' [H|[_ H]]; [done|]. by apply elem_of_nil in H.
  - destruct (relax_edge_dist_inv X u cur_d st e Hinv Hu Hdu)
      as (Hinv' & Hdu' & Hvis'); [apply Hes; left|].
    eapply dist_inv_weaken; [|apply IH; [exact Hinv'| | |]].
    + simpl. intros u' e' [H|[-> H]]; [by left; left|].
      apply elem_of_cons in H as [->|H]; [left; right|right]; done.
    + by rewrite Hvis'.
    + exact Hdu'.
    + intros e' He'. apply Hes. by right.
Qed.

(** A walk that ends outside the visited set passes a node that is not
    visited and whose distance is at most the weight walked so far. *)
Lemma walk_leaves_visited st a da base es t :
  dist_inv g (expanded g (s_visited st)) start st →
  walk g a es t → s_dist st !! a = Some da → da ≤ base →
  t ∉ s_visited st →
  ∃ x dx, (x ∉ s_visited st) ∧ s_dist st !! x = Some dx ∧
          dx ≤ base + path_weight es.
Proof.
  intros Hinv Hw. revert da base.
  induction Hw as [a|a e es t He Hw IH]; intros da base Hda Hle Ht.
  - exists a, da. simpl. split_and!; [done|done|lia].
  - pose proof (walk_nonneg g _ _ _ Hnn Hw) as Hpos.
    pose proof (Hnn _ _ He) as Hwe.
    simpl. fold (path_weight es).
    destruct (decide (a ∈ s_visited st)) as [Ha|Ha].
    + destruct (di_relaxed _ _ _ _ Hinv a e) as (_ & du & dv & Hdu & Hdv & Hdle);
        [by split|].
      rewrite Hda in Hdu. injection Hdu as <-.
      destruct (IH dv (base + weight e) Hdv ltac:(lia) Ht)
        as (x & dx & Hx & Hdx & Hxle).
      exists x, dx. split_and!; [done|done|lia].
    + exists a, da. split_and!; [done|done|lia].
Qed.

(** The heart of Dijkstra's argument: the smallest queued distance of a
    node never popped before is a lower bound for every walk to it. *)
Lemma pop_optimal st cur_d u pq' es :
  dist_inv g (expanded g (s_visited st)) start st →
  heappop (s_pq st) = Some ((cur_d, u), pq') →
  u ∉ s_visited st →
  walk g start es u → cur_d ≤ path_weight es.
Proof.
  intros Hinv Hpop Hu Hw.
  destruct (walk_leaves_visited st start 0 0 es u Hinv Hw)
    as (x & dx & Hx & Hdx & Hle); [apply Hinv|lia|done|].
  apply heappop_spec in Hpop as (_ & Hmin & _).
  pose proof (qi_queued _ _ _ (di_queue _ _ _ _ Hinv) _ _ Hdx Hx) as Hin.
  specialize (Hmin _ Hin). simpl in Hmin. lia.
Qed.

Lemma pop_new_dist_inv st cur_d u pq' :
  dist_inv g (expanded g (s_visited st)) start st →
  heappop (s_pq st) = Some ((cur_d, u), pq') →
  u ∉ s_visited st →
  dist_inv g (expanded g (s_visited st)) start
    (mkState (s_dist st) (s_prev st) pq' ({[u]} ∪ s_visited st)).
Proof.
  intros Hinv Hpop Hu.
  pose proof Hinv as [HQ D1 D2 D3 D4 P1 P2 P3].
  pose proof (first_pop_current _ _ _ _ _ _ HQ Hpop Hu) as Hcur.
  constructor; simpl; auto.
  - by eapply pop_new_queue_inv.
  - intros v Hv. apply elem_of_union in Hv as [->%elem_of_singleton|Hv].
    + exists cur_d. split; [done|]. intros es Hw. by eapply pop_optimal.
    + by apply D3.
  - intros u' e' HX. destruct (D4 _ _ HX) as [Hu' H].
    split; [by apply elem_of_union_r|done].
  - intros v par e Hp. destruct (P1 _ _ _ Hp) as [Hpar H].
    split; [by apply elem_of_union_r|done].
  - intros v Hv. apply elem_of_union in Hv as [->%elem_of_singleton|Hv].
    + destruct (decide (u = start)) as [->|Hus].
      * exists [start], []. split; [constructor|].
        intros x ->%list_elem_of_singleton.
        by apply elem_of_union_l, elem_of_singleton.
      * destruct (P2 _ _ Hcur Hus) as [[par e] Hp].
        destruct (P1 _ _ _ Hp) as (Hpar & _).
        destruct (P3 _ Hpar) as (l & es & Hch & Hall).
        exists (u :: l), (es ++ [e]). split; [by econstructor|].
        intros x Hx. apply elem_of_cons in Hx as [->|Hx].
        -- by apply elem_of_union_l, elem_of_singleton.
        -- by apply elem_of_union_r, Hall.
    + destruct (P3 _ Hv) as (l & es & Hch & Hall).
      exists l, es. split; [done|].
      intros x Hx. by apply elem_of_union_r, Hall.
Qed.

Lemma loop_body_dist_inv st cur_d u pq' :
  dist_inv g (expanded g (s_visited st)) start st →
  heappop (s_pq st) = Some ((cur_d, u), pq') →
  let st' := loop_body g st cur_d u pq' in
  dist_inv g (expanded g (s_visited st')) start st'.
Proof.
  intros Hinv Hpop. simpl.
  pose proof Hinv as [HQ D1 D2 D3 D4 P1 P2 P3].
  pose proof (first_pop_current _ _ _ _ _ _ HQ Hpop) as Hcur.
  unfold loop_body.
  destruct (decide (u ∈ s_visited st)) as [Hu|Hu].
  - constructor; simpl; auto. by eapply pop_seen_queue_inv.
  - rewrite (cost_eqb_current _ _ _ (Hcur Hu)).
    set (st1 := mkState _ _ _ _).
    destruct (relax_fold_pushes u cur_d (neighbors g u) st1) as (_ & _ & _ & ->).
    eapply dist_inv_weaken;
      [|apply (relax_fold_dist_inv (expanded g (s_visited st)) u cur_d
                 (neighbors g u) st1)].
    + apply expanded_visit.
    + by apply (pop_new_dist_inv st cur_d u pq').
    + simpl. by apply elem_of_union_l, elem_of_singleton.
    + simpl. by apply Hcur.
    + done.
Qed.

Lemma loop_dist_inv fuel st st' :
  dist_inv g (expanded g (s_visited st)) start st →
  dijkstra_loop fuel g st = Some st' →
  dist_inv g (expanded g (s_visited st')) start st'.
Proof.
  revert st. induction fuel as [|f IH]; intros st Hinv; simpl;
    unfold dijkstra_step;
    destruct (heappop (s_pq st)) as [[[cur_d u] pq']|] eqn:Hpop;
    try done; try (by intros [= <-]).
  intros H. eapply IH; [|exact H]. by apply loop_body_dist_inv.
Qed.

End DistInvariant.

(** ** Parent chains and [rebuild_path] *)

Section Chains.

Variable prev : gmap string (string * Edge).
Variable start : string.

Lemma pred_chain_det v l1 es1 l2 es2 :
  pred_chain prev start v l1 es1 → pred_chain prev start v l2 es2 →
  l1 = l2 ∧ es1 = es2.
Proof.
  intros H1. revert l2 es2.
  induction H1 as [|v par e l es Hv Hp Hc IH]; intros l2 es2 H2.
  - by inversion H2.
  - inversion H2 as [|v' par' e' l' es' _ Hp' Hc']; subst; [done|].
    rewrite Hp in Hp'. injection Hp' as <- <-.
    by destruct (IH _ _ Hc') as [-> ->].
Qed.

Lemma pred_chain_from v l es x :
  pred_chain prev start v l es → x ∈ l →
  ∃ l' es', pred_chain prev start x l' es' ∧ (length l' ≤ length l)%nat.
Proof.
  induction 1 as [|v par e l es Hv Hp Hc IH]; intros Hx.
  - apply list_elem_of_singleton in Hx as ->.
    exists [start], []. split; [constructor|done].
  - apply elem_of_cons in Hx as [->|Hx].
    + exists (v :: l), (es ++ [e]). split; [by econstructor|done].
    + destruct (IH Hx) as (l' & es' & Hc' & Hle).
      exists l', es'. split; [done|]. simpl. lia.
Qed.

(** A chain never passes a node twice. *)
Lemma pred_chain_NoDup v l es : pred_chain prev start v l es → NoDup l.
Proof.
  induction 1 as [|v par e l es Hv Hp Hc IH].
  - apply NoDup_singleton.
  - constructor; [|done]. intros Hin.
    assert (pred_chain prev start v (v :: l) (es ++ [e])) as Hfull
      by (by econstructor).
    destruct (pred_chain_from _ _ _ _ Hc Hin) as (l' & es' & Hc' & Hle).
    destruct (pred_chain_det _ _ _ _ _ Hc' Hfull) as [-> _].
    simpl in Hle. lia.
Qed.

Lemma pred_chain_ends v l es :
  pred_chain prev start v l es → head l = Some v ∧ last l = Some start.
Proof.
  induction 1 as [|v par e l es Hv Hp Hc [IH1 IH2]]; [done|].
  split; [done|]. destruct l; [done|]. by rewrite last_cons_cons.
Qed.

Lemma pred_chain_keys v l es x :
  pred_chain prev start v l es → x ∈ l → x = start ∨ is_Some (prev !! x).
Proof.
  induction 1 as [|v par e l es Hv Hp Hc IH]; intros Hx.
  - left. by apply list_elem_of_singleton in Hx.
  - apply elem_of_cons in Hx as [->|Hx]; [right; by eexists|auto].
Qed.

Lemma pred_chain_length v l es :
  pred_chain prev start v l es → (length l ≤ S (size prev))%nat.
Proof.
  intros Hc.
  assert (l ⊆+ start :: elements (dom prev)) as Hsub.
  { apply NoDup_submseteq; [by eapply pred_chain_NoDup|].
    intros x Hx. destruct (pred_chain_keys _ _ _ _ Hc Hx) as [->|Hk]; [left|].
    right. by apply elem_of_elements, elem_of_dom. }
  apply submseteq_length in Hsub. simpl in Hsub.
  by rewrite <- (size_dom (D := gset string)).
Qed.

(** Along a chain the loop of [rebuild_path] collects the chain's edges. *)
Lemma rebuild_loop_chain fuel cur l es out_rev :
  pred_chain prev start cur l es → (length l ≤ S fuel)%nat →
  rebuild_loop fuel prev start cur out_rev = Some (es ++ rev out_rev).
Proof.
  intros Hc. revert fuel out_rev.
  induction Hc as [|v par e l es Hv Hp Hc IH]; intros fuel out_rev Hlen.
  - destruct fuel; simpl; by rewrite decide_True.
  - assert (l ≠ []) as Hl by (by destruct Hc).
    destruct fuel as [|f]; simpl in *; [destruct l; [done|simpl in Hlen; lia]|].
    rewrite decide_False by done. rewrite Hp.
    rewrite IH by lia. by rewrite rev_app_distr, <- app_assoc.
Qed.

Lemma rebuild_path_fuel_chain fuel target l es :
  pred_chain prev start target l es → (size prev ≤ fuel)%nat →
  rebuild_path_fuel fuel prev start target = Some es.
Proof.
  intros Hc Hfuel. unfold rebuild_path_fuel.
  destruct (decide (target = start)) as [->|Hne].
  - by inversion Hc.
  - rewrite (rebuild_loop_chain fuel target l es []); [by rewrite app_nil_r|done|].
    apply pred_chain_length in Hc. lia.
Qed.

Lemma rebuild_path_fuel_absent fuel target :
  prev !! target = None → rebuild_path_fuel fuel prev start target = Some [].
Proof.
  intros Hp. unfold rebuild_path_fuel.
  destruct (decide (target = start)); [done|].
  destruct fuel; simpl; rewrite decide_False by done; by rewrite Hp.
Qed.

End Chains.

(** ** What [dijkstra] returns *)

Lemma nonneg_weightsb_spec g : nonneg_weightsb g = true → nonneg_weights g.
Proof.
  unfold nonneg_weightsb, nonneg_weights, neighbors. intros H u e He.
  destruct (adj g !! u) as [es|] eqn:E; simpl in He;
    [|by apply elem_of_nil in He].
  rewrite forallb_forall in H.
  apply elem_of_map_to_list, list_elem_of_In in E.
  specialize (H _ E). simpl in H. rewrite forallb_forall in H.
  apply list_elem_of_In in He. apply H in He. by apply Z.leb_le.
Qed.

Lemma keyedb_spec g : keyedb g = true → keyed g.
Proof.
  unfold keyedb, keyed, neighbors. intros H u e He.
  destruct (adj g !! u) as [es|] eqn:E; simpl in He;
    [|by apply elem_of_nil in He].
  rewrite forallb_forall in H.
  apply elem_of_map_to_list, list_elem_of_In in E.
  specialize (H _ E). simpl in H. rewrite forallb_forall in H.
  apply list_elem_of_In in He. apply H in He. by apply bool_decide_eq_true in He.
Qed.

(** The final state of the loop, for every weight. *)
Lemma dijkstra_final_queue g start :
  ∃ st, dijkstra g start = Some (mkResult (s_dist st) (s_prev st)) ∧
        queue_inv (expanded g (s_visited st)) start st ∧ s_pq st = [].
Proof.
  unfold dijkstra, dijkstra_fuel.
  destruct (loop_total g (S (edge_count g)) (init_state start)) as [st Hst];
    [by rewrite init_measure|].
  rewrite Hst. exists st. split_and!; [done| |by eapply loop_done].
  exact (loop_queue_inv g start _ (init_state start) _
           (queue_inv_init g start) Hst).
Qed.

(** The final state of the loop under non-negative weights. *)
Lemma dijkstra_final g start :
  nonneg_weights g →
  ∃ st, dijkstra g start = Some (mkResult (s_dist st) (s_prev st)) ∧
        dist_inv g (expanded g (s_visited st)) start st ∧ s_pq st = [].
Proof.
  intros Hnn. unfold dijkstra, dijkstra_fuel.
  destruct (loop_total g (S (edge_count g)) (init_state start)) as [st Hst];
    [by rewrite init_measure|].
  rewrite Hst. exists st. split_and!; [done| |by eapply loop_done].
  exact (loop_dist_inv g start Hnn _ (init_state start) _
           (dist_inv_init g start Hnn) Hst).
Qed.

Lemma final_all_visited X start st v d :
  queue_inv X start st → s_pq st = [] →
  s_dist st !! v = Some d → v ∈ s_visited st.
Proof.
  intros HQ Hpq Hd.
  destruct (decide (v ∈ s_visited st)) as [|Hn]; [done|].
  pose proof (qi_queued _ _ _ HQ _ _ Hd Hn) as Hin.
  rewrite Hpq in Hin. by apply elem_of_nil in Hin.
Qed.

Lemma final_shortest g start st v d :
  dist_inv g (expanded g (s_visited st)) start st → s_pq st = [] →
  s_dist st !! v = Some d → shortest g start v d.
Proof.
  intros Hinv Hpq Hd. split.
  - by eapply (di_real g).
  - pose proof (final_all_visited _ _ _ _ _ (di_queue _ _ _ _ Hinv) Hpq Hd) as Hv.
    destruct (di_opt _ _ _ _ Hinv _ Hv) as (d' & Hd' & Hopt).
    rewrite Hd in Hd'. by injection Hd' as <-.
Qed.

Lemma final_chain g start st v d :
  dist_inv g (expanded g (s_visited st)) start st → s_pq st = [] →
  s_dist st !! v = Some d →
  ∃ l es, pred_chain (s_prev st) start v l es ∧
          walk g start es v ∧ path_weight es = d.
Proof.
  intros Hinv Hpq Hd.
  pose proof (final_all_visited _ _ _ _ _ (di_queue _ _ _ _ Hinv) Hpq Hd) as Hv.
  destruct (di_chain _ _ _ _ Hinv _ Hv) as (l & es & Hc & _).
  exists l, es. split; [done|].
  clear Hv. revert d Hd.
  induction Hc as [|v par e l es Hvs Hp Hc IH]; intros d Hd.
  - split; [constructor|]. rewrite (di_start _ _ _ _ Hinv) in Hd.
    by injection Hd as <-.
  - destruct (di_prev _ _ _ _ Hinv _ _ _ Hp)
      as (_ & He & <- & _ & dp & Hdp & Hdv).
    destruct (IH _ Hdp) as [Hw Hpw].
    split; [by apply (walk_snoc g _ _ par)|].
    rewrite path_weight_snoc, Hpw. rewrite Hd in Hdv. by injection Hdv.
Qed.

Lemma contiguous_spec s es t :
  contiguous s es t → es ≠ [] →
  (∃ e0, head es = Some e0 ∧ src e0 = s) ∧
  (∀ i e1 e2, es !! i = Some e1 → es !! S i = Some e2 → dst e1 = src e2) ∧
  (∃ el, last es = Some el ∧ dst el = t).
Proof.
  revert s. induction es as [|e es IH]; intros s Hc Hne; [done|].
  destruct Hc as [Hs Hc]. destruct es as [|e' es].
  - simpl in Hc. split_and!; [by exists e| |by exists e].
    intros i e1 e2 _ H. by destruct i.
  - destruct (IH _ Hc ltac:(done)) as ((e0 & He0 & Hs0) & Hmid & Hlast).
    simpl in He0. injection He0 as <-.
    split_and!; [by exists e| |by rewrite last_cons_cons].
    intros [|i] e1 e2 H1 H2; simpl in *.
    + injection H1 as <-. injection H2 as <-. done.
    + by eapply Hmid.
Qed.

(** ** The graph store *)

Section Store.

Lemma setdefault_nil_default a k u :
  default [] (setdefault_nil a k !! u) = default [] (a !! u).
Proof.
  unfold setdefault_nil. destruct (a !! k) eqn:E; [done|].
  destruct (decide (k = u)) as [->|Hne].
  - by rewrite lookup_insert_eq, E.
  - by rewrite lookup_insert_ne.
Qed.

Lemma setdefault_nil_keys a k u :
  is_Some (setdefault_nil a k !! u) ↔ u = k ∨ is_Some (a !! u).
Proof.
  unfold setdefault_nil. destruct (a !! k) eqn:E.
  - split; [by right|]. intros [->|H]; [by eexists|done].
  - destruct (decide (k = u)) as [->|Hne].
    + rewrite lookup_insert_eq. split; [by left|by eexists].
    + rewrite lookup_insert_ne by done. split; [by right|].
      by intros [->|H].
Qed.

Lemma neighbors_add_edge g s d r w u :
  neighbors (add_edge g s d r w) u =
  if decide (u = s) then neighbors g s ++ [mkEdge s d r w] else neighbors g u.
Proof.
  unfold neighbors, add_edge. simpl. rewrite setdefault_nil_default.
  destruct (decide (u = s)) as [->|Hne].
  - by rewrite lookup_insert_eq, setdefault_nil_default.
  - rewrite lookup_insert_ne by done. apply setdefault_nil_default.
Qed.

Lemma add_edge_keys g s d r w k :
  is_Some (adj (add_edge g s d r w) !! k) ↔
  k = s ∨ k = d ∨ is_Some (adj g !! k).
Proof.
  unfold add_edge. simpl. rewrite setdefault_nil_keys.
  destruct (decide (k = s)) as [->|Hne].
  - rewrite lookup_insert_eq. split; [by left|]. intros _. right. by eexists.
  - rewrite lookup_insert_ne by done. rewrite setdefault_nil_keys. tauto.
Qed.

Lemma neighbors_add_edge_mono g s d r w u e :
  e ∈ neighbors g u → e ∈ neighbors (add_edge g s d r w) u.
Proof.
  intros He. rewrite neighbors_add_edge.
  destruct (decide (u = s)) as [->|]; [|done]. apply elem_of_app. by left.
Qed.

Lemma neighbors_add_edge_new g s d r w :
  mkEdge s d r w ∈ neighbors (add_edge g s d r w) s.
Proof.
  rewrite neighbors_add_edge, decide_True by done.
  apply elem_of_app. right. left.
Qed.

Lemma neighbors_add_edge_inv g s d r w u e :
  e ∈ neighbors (add_edge g s d r w) u →
  e ∈ neighbors g u ∨ (u = s ∧ e = mkEdge s d r w).
Proof.
  rewrite neighbors_add_edge. destruct (decide (u = s)) as [->|]; [|by left].
  intros [H|H%list_elem_of_singleton]%elem_of_app; [by left|by right].
Qed.

Lemma add_edge_dst_closed g s d r w :
  dst_closed g → dst_closed (add_edge g s d r w).
Proof.
  intros Hg u e He. apply add_edge_keys.
  destruct (neighbors_add_edge_inv _ _ _ _ _ _ _ He) as [H|[-> ->]].
  - right. right. by apply (Hg u).
  - right. by left.
Qed.

Lemma add_edge_keyed g s d r w : keyed g → keyed (add_edge g s d r w).
Proof.
  intros Hg u e He.
  destruct (neighbors_add_edge_inv _ _ _ _ _ _ _ He) as [H|[-> ->]];
    [by apply Hg|done].
Qed.

Lemma empty_graph_neighbors u : neighbors empty_graph u = [].
Proof. unfold neighbors. simpl. by rewrite lookup_empty. Qed.

(** What both operations preserve, stated once for any property that
    [add_edge] preserves. *)
Lemma connect_node_preserves (P : Graph → Prop) c dt df ov g n :
  (∀ g s d r w, P g → P (add_edge g s d r w)) →
  P g → P (connect_node c dt df ov g n).
Proof.
  intros HP Hg. unfold connect_node.
  destruct (default (dt, df) (ov !! n)) as [to_w from_w]. auto.
Qed.

Lemma add_core_connectivity_preserves (P : Graph → Prop) g ns c dt df ov :
  (∀ g s d r w, P g → P (add_edge g s d r w)) →
  P g → P (add_core_connectivity g ns c dt df ov).
Proof.
  intros HP Hg. unfold add_core_connectivity.
  assert (P (add_edge g c c "noop" 0)) as H0 by auto.
  revert H0. generalize (add_edge g c c "noop" 0).
  induction ns as [|n ns IH]; intros g0 H0; simpl; [done|].
  apply IH. by apply connect_node_preserves.
Qed.

Lemma run_ops_preserves (P : Graph → Prop) ops :
  (∀ g s d r w, P g → P (add_edge g s d r w)) →
  P empty_graph → P (run_ops ops).
Proof.
  intros HP. unfold run_ops. generalize empty_graph.
  induction ops as [|op ops IH]; intros g Hg; simpl; [done|].
  apply IH. destruct op; simpl; [auto|].
  by apply add_core_connectivity_preserves.
Qed.

Lemma run_ops_dst_closed ops : dst_closed (run_ops ops).
Proof.
  apply (run_ops_preserves dst_closed); [apply add_edge_dst_closed|].
  intros u e He. rewrite empty_graph_neighbors in He.
  by apply elem_of_nil in He.
Qed.

Lemma run_ops_keyed ops : keyed (run_ops ops).
Proof.
  apply (run_ops_preserves keyed); [apply add_edge_keyed|].
  intros u e He. rewrite empty_graph_neighbors in He.
  by apply elem_of_nil in He.
Qed.

(** The hub edges of a covered node are there after the augmentation. *)
Lemma connect_node_mono c dt df ov g n u e :
  e ∈ neighbors g u → e ∈ neighbors (connect_node c dt df ov g n) u.
Proof.
  intros He. unfold connect_node.
  destruct (default (dt, df) (ov !! n)) as [to_w from_w].
  by do 2 apply neighbors_add_edge_mono.
Qed.

Lemma connect_fold_mono c dt df ov ns g u e :
  e ∈ neighbors g u →
  e ∈ neighbors (fold_left (connect_node c dt df ov) ns g) u.
Proof.
  revert g. induction ns as [|n ns IH]; intros g He; simpl; [done|].
  apply IH. by apply connect_node_mono.
Qed.

Lemma connect_node_edges c dt df ov g n :
  let w := default (dt, df) (ov !! n) in
  mkEdge n c "route_to_core" w.1 ∈ neighbors (connect_node c dt df ov g n) n ∧
  mkEdge c n "route_from_core" w.2 ∈ neighbors (connect_node c dt df ov g n) c.
Proof.
  simpl. unfold connect_node.
  destruct (default (dt, df) (ov !! n)) as [to_w from_w]. simpl. split.
  - apply neighbors_add_edge_mono, neighbors_add_edge_new.
  - apply neighbors_add_edge_new.
Qed.

Lemma add_core_connectivity_edges g ns c dt df ov n :
  n ∈ ns →
  let g' := add_core_connectivity g ns c dt df ov in
  let w := default (dt, df) (ov !! n) in
  mkEdge n c "route_to_core" w.1 ∈ neighbors g' n ∧
  mkEdge c n "route_from_core" w.2 ∈ neighbors g' c.
Proof.
  simpl. unfold add_core_connectivity.
  generalize (add_edge g c c "noop" 0).
  induction ns as [|m ns IH]; intros g0 Hn; [by apply elem_of_nil in Hn|].
  simpl. destruct (decide (n = m)) as [->|Hne].
  - destruct (connect_node_edges c dt df ov g0 m) as [H1 H2].
    split; by apply connect_fold_mono.
  - apply IH. apply elem_of_cons in Hn as [->|Hn]; done.
Qed.

End Store.

(** ** Recorded distances belong to reachable nodes, for every weight *)

Section Reach.

Variable g : Graph.
Variable start : string.

Lemma reachable_step u e :
  reachable g start u → e ∈ neighbors g u → reachable g start (dst e).
Proof. intros [es Hw] He. exists (es ++ [e]). by apply (walk_snoc g _ _ u). Qed.

Lemma relax_fold_reach u cur_d es st :
  reachable g start u → (∀ e, e ∈ es → e ∈ neighbors g u) →
  reach_inv g start st →
  reach_inv g start (fold_left (relax_edge u cur_d) es st).
Proof.
  intros Hu. revert st. induction es as [|e es IH]; intros st Hes Hr; [done|].
  simpl. apply IH; [intros e' He'; apply Hes; by right|].
  unfold relax_edge. destruct (cost_ltb _ _); [|done].
  intros v d. simpl. destruct (decide (v = dst e)) as [->|Hne].
  - intros _. apply (reachable_step u); [done|]. apply Hes. left.
  - rewrite lookup_insert_ne by done. apply Hr.
Qed.

Lemma loop_body_reach X st cur_d u pq' :
  queue_inv X start st → reach_inv g start st →
  heappop (s_pq st) = Some ((cur_d, u), pq') →
  reach_inv g start (loop_body g st cur_d u pq').
Proof.
  intros HQ Hr Hpop. unfold loop_body.
  destruct (decide _); [done|]. destruct (negb _); [done|].
  apply relax_fold_reach; [|done|done].
  apply heappop_spec in Hpop as (Hin & _).
  destruct (qi_bound _ _ _ HQ _ _ Hin) as (d' & Hd' & _). by eapply Hr.
Qed.

Lemma loop_reach fuel st st' :
  queue_inv (expanded g (s_visited st)) start st → reach_inv g start st →
  dijkstra_loop fuel g st = Some st' → reach_inv g start st'.
Proof.
  revert st. induction fuel as [|f IH]; intros st HQ Hr; simpl;
    unfold dijkstra_step;
    destruct (heappop (s_pq st)) as [[[cur_d u] pq']|] eqn:Hpop;
    try done; try (by intros [= <-]).
  intros H. eapply IH; [| |exact H].
  - by apply loop_body_queue_inv.
  - by eapply loop_body_reach.
Qed.

Lemma reach_inv_init : reach_inv g start (init_state start).
Proof.
  intros v d Hv. simpl in Hv. apply lookup_singleton_Some in Hv as [<- _].
  exists []. constructor.
Qed.

End Reach.

(** For every weight, the nodes with a distance are the reachable ones. *)
Lemma dijkstra_dist_reachable g start :
  ∃ r, dijkstra g start = Some r ∧
       ∀ v, is_Some (dist r !! v) ↔ reachable g start v.
Proof.
  unfold dijkstra, dijkstra_fuel.
  destruct (loop_total g (S (edge_count g)) (init_state start)) as [st Hst];
    [by rewrite init_measure|].
  rewrite Hst. eexists. split; [done|]. simpl. intros v. split.
  - intros [d Hd].
    by apply (loop_reach g start _ (init_state start) _
                (queue_inv_init g start) (reach_inv_init g start) Hst v d).
  - intros [es Hw].
    apply (queue_inv_done_reachable g start st es v); [|by eapply loop_done|done].
    exact (loop_queue_inv g start _ (init_state start) _
             (queue_inv_init g start) Hst).
Qed.

(** The content of the correctness of [dijkstra] under non-negative
    weights. *)
Lemma dijkstra_spec g start :
  nonneg_weights g →
  ∃ r, dijkstra g start = Some r ∧
       dist r !! start = Some 0 ∧
       (∀ v, is_Some (dist r !! v) ↔ reachable g start v) ∧
       (∀ v d, dist r !! v = Some d → shortest g start v d).
Proof.
  intros Hnn. destruct (dijkstra_final g start Hnn) as (st & Hr & Hinv & Hpq).
  eexists. split; [exact Hr|]. simpl. split_and!.
  - apply Hinv.
  - intros v. split.
    + intros [d Hd]. destruct (di_real _ _ _ _ Hinv _ _ Hd) as (es & Hw & _).
      by exists es.
    + intros [es Hw].
      by apply (queue_inv_done_reachable g start st es v); [apply Hinv| |].
  - intros v d Hd. by eapply final_shortest.
Qed.

(** ** Sorting by cost *)

Section Ranking.



Lemma insert_by_cost_perm x l : insert_by_cost x l ≡ₚ x :: l.
Proof.
  induction l as [|y l IH]; simpl; [done|].
  destruct (cost_leb x.2 y.2); [done|].
  rewrite IH. apply Permutation_swap.
Qed.


Lemma sort_by_cost_perm l : sort_by_cost l ≡ₚ l.
Proof.
  induction l as [|x l IH]; simpl; [done|].
  by rewrite insert_by_cost_perm, IH.
Qed.



End Ranking.

(** ** The guards of [main] *)

Lemma in_nodes g s :
  s ∈ (list_to_set (nodes g) : gset string) ↔ is_Some (adj g !! s).
Proof.
  unfold nodes. rewrite elem_of_list_to_set, list_elem_of_fmap. split.
  - intros ([k es] & -> & H). apply elem_of_map_to_list in H. by eexists.
  - intros [es H]. exists (s, es). split; [done|]. by apply elem_of_map_to_list.
Qed.

(** * The claims *)

Local Open Scope string_scope.
Local Open Scope Z_scope.
Local Open Scope list_scope.

(** The specification's example: on [A->B] (1), [B->C] (1), [A->C] (5) the
    query from [A] to [C] costs 2 and goes through [B]. *)
Example example_graph_query :
  main_query example_graph [] "A" "C" =
  Some (PathFound (Finite 2)
          [mkEdge "A" "B" "ab" 1; mkEdge "B" "C" "bc" 1] []).
Proof. vm_compute. reflexivity. Qed.

Lemma example_graph_nonneg : nonneg_weights example_graph.
Proof. apply nonneg_weightsb_spec. vm_compute. reflexivity. Qed.

Lemma example_graph_keyed : keyed example_graph.
Proof. apply keyedb_spec. vm_compute. reflexivity. Qed.

Lemma example_graph_A_B : reachable example_graph "A" "B".
Proof.
  exists [mkEdge "A" "B" "ab" 1].
  apply walk_cons; [|apply walk_nil].
  apply list_elem_of_In. vm_compute. auto.
Qed.

Lemma example_graph_B_C : reachable example_graph "B" "C".
Proof.
  exists [mkEdge "B" "C" "bc" 1].
  apply walk_cons; [|apply walk_nil].
  apply list_elem_of_In. vm_compute. auto.
Qed.

Lemma example_graph_A_C : reachable example_graph "A" "C".
Proof.
  exists [mkEdge "A" "C" "ac" 5].
  apply walk_cons; [|apply walk_nil].
  apply list_elem_of_In. vm_compute. auto.
Qed.

(** Over the integers, where no sum rounds or overflows: under
    non-negative weights [dijkstra] returns, for every start node
    (present in the graph or not), a distance map in which the start has
    distance 0, a node has an entry exactly when a walk from the start
    arrives at it, and every entry is the least weight of such a walk. *)
Theorem dijkstra_distances_shortest g start :
  nonneg_weights g →
  ∃ r, dijkstra g start = Some r ∧
       dist r !! start = Some 0 ∧
       (∀ v, is_Some (dist r !! v) ↔ reachable g start v) ∧
       (∀ v d, dist r !! v = Some d → shortest g start v d).
Proof. apply dijkstra_spec. Qed.

Lemma dijkstra_distances_shortest_witness :
  nonneg_weights example_graph ∧
  ∃ r, dijkstra example_graph "A" = Some r ∧
       dist r !! "A" = Some 0 ∧
       (∀ v, is_Some (dist r !! v) ↔ reachable example_graph "A" v) ∧
       (∀ v d, dist r !! v = Some d → shortest example_graph "A" v d).
Proof.
  split; [exact example_graph_nonneg|].
  apply (dijkstra_distances_shortest example_graph "A").
  exact example_graph_nonneg.
Defined.

(** Over the integers: under non-negative weights, in a graph whose edges
    are stored under
    their source (as [add_edge] stores them), for a target [t] reachable
    from [s] and different from it, [rebuild_path] on the predecessor map of
    [dijkstra] returns stored edges that form a contiguous path: the first
    edge leaves [s], every edge arrives where the next one leaves, the last
    one arrives at [t]; and their weights add up to the distance of [t]. *)
Theorem rebuild_path_contiguous g s t :
  nonneg_weights g → keyed g → reachable g s t → t ≠ s →
  ∃ r es d,
    dijkstra g s = Some r ∧
    rebuild_path (prev r) s t = Some es ∧
    dist r !! t = Some d ∧
    walk g s es t ∧
    (∃ e0, head es = Some e0 ∧ src e0 = s) ∧
    (∀ i e1 e2, es !! i = Some e1 → es !! S i = Some e2 → dst e1 = src e2) ∧
    (∃ el, last es = Some el ∧ dst el = t) ∧
    path_weight es = d.
Proof.
  intros Hnn Hk [p Hp] Hts.
  destruct (dijkstra_final g s Hnn) as (st & Hr & Hinv & Hpq).
  destruct (queue_inv_done_reachable g s st p t (di_queue _ _ _ _ Hinv) Hpq Hp)
    as [d Hd].
  destruct (final_chain g s st t d Hinv Hpq Hd) as (l & es & Hc & Hw & Hpw).
  exists (mkResult (s_dist st) (s_prev st)), es, d. simpl.
  assert (es ≠ []) as Hne.
  { intros ->. inversion Hw. by subst. }
  destruct (contiguous_spec s es t (walk_contiguous g s es t Hk Hw) Hne)
    as (H1 & H2 & H3).
  split_and!; try done.
  unfold rebuild_path. by apply (rebuild_path_fuel_chain _ _ _ _ l).
Qed.

Lemma rebuild_path_contiguous_witness :
  ∃ r es d,
    dijkstra example_graph "A" = Some r ∧
    rebuild_path (prev r) "A" "C" = Some es ∧
    dist r !! "C" = Some d ∧
    walk example_graph "A" es "C" ∧
    (∃ e0, head es = Some e0 ∧ src e0 = "A") ∧
    (∀ i e1 e2, es !! i = Some e1 → es !! S i = Some e2 → dst e1 = src e2) ∧
    (∃ el, last es = Some el ∧ dst el = "C") ∧
    path_weight es = d.
Proof.
  apply (rebuild_path_contiguous example_graph "A" "C").
  - exact example_graph_nonneg.
  - exact example_graph_keyed.
  - exact example_graph_A_C.
  - discriminate.
Defined.

(** C4: under non-negative weights, for a node [s] of the graph the query
    from [s] to [s] reports cost 0 and no edge. *)
Theorem query_to_self g assets0 s :
  nonneg_weights g → is_Some (adj g !! s) →
  ∃ r, dijkstra g s = Some r ∧
       dist_get (dist r) s = Finite 0 ∧
       rebuild_path (prev r) s s = Some [] ∧
       main_query g assets0 s s =
         Some (PathFound (Finite 0) [] (rank (dist r) assets0)).
Proof.
  intros Hnn Hs.
  destruct (dijkstra_spec g s Hnn) as (r & Hr & H0 & _).
  exists r.
  assert (dist_get (dist r) s = Finite 0) as Hc
    by (unfold dist_get; by rewrite H0).
  assert (rebuild_path (prev r) s s = Some []) as Hp.
  { unfold rebuild_path, rebuild_path_fuel. by rewrite decide_True. }
  split_and!; [done|done|done|].
  unfold main_query. apply in_nodes in Hs.
  destruct (decide (s ∉ list_to_set (nodes g))) as [H|_]; [by destruct H|].
  by rewrite Hr, Hp, Hc.
Qed.

Lemma query_to_self_witness :
  ∃ r, dijkstra example_graph "B" = Some r ∧
       dist_get (dist r) "B" = Finite 0 ∧
       rebuild_path (prev r) "B" "B" = Some [] ∧
       main_query example_graph ["C"] "B" "B" =
         Some (PathFound (Finite 0) [] (rank (dist r) ["C"])).
Proof.
  apply (query_to_self example_graph ["C"] "B").
  - exact example_graph_nonneg.
  - vm_compute. eexists. reflexivity.
Defined.

(** Over the integers: under non-negative weights, when [b] is reachable
    from [a] and [c]
    from [b], the three computed distances exist and
    [dist(a,c) <= dist(a,b) + dist(b,c)]. *)
Theorem distance_triangle g a b c :
  nonneg_weights g → reachable g a b → reachable g b c →
  ∃ ra rb dab dbc dac,
    dijkstra g a = Some ra ∧ dijkstra g b = Some rb ∧
    dist ra !! b = Some dab ∧ dist rb !! c = Some dbc ∧
    dist ra !! c = Some dac ∧ dac ≤ dab + dbc.
Proof.
  intros Hnn Hab Hbc.
  destruct (dijkstra_spec g a Hnn) as (ra & Hra & _ & Hreach_a & Hsh_a).
  destruct (dijkstra_spec g b Hnn) as (rb & Hrb & _ & Hreach_b & Hsh_b).
  destruct (proj2 (Hreach_a b) Hab) as [dab Hdab].
  destruct (proj2 (Hreach_b c) Hbc) as [dbc Hdbc].
  assert (reachable g a c) as Hac.
  { destruct Hab as [p1 H1], Hbc as [p2 H2]. exists (p1 ++ p2).
    by apply (walk_app g _ _ b). }
  destruct (proj2 (Hreach_a c) Hac) as [dac Hdac].
  exists ra, rb, dab, dbc, dac. split_and!; try done.
  destruct (Hsh_a _ _ Hdab) as [(p1 & Hw1 & Hp1) _].
  destruct (Hsh_b _ _ Hdbc) as [(p2 & Hw2 & Hp2) _].
  destruct (Hsh_a _ _ Hdac) as [_ Hmin].
  specialize (Hmin (p1 ++ p2) (walk_app g _ _ _ _ _ Hw1 Hw2)).
  rewrite path_weight_app in Hmin. lia.
Qed.

Lemma distance_triangle_witness :
  ∃ ra rb dab dbc dac,
    dijkstra example_graph "A" = Some ra ∧
    dijkstra example_graph "B" = Some rb ∧
    dist ra !! "B" = Some dab ∧ dist rb !! "C" = Some dbc ∧
    dist ra !! "C" = Some dac ∧ dac ≤ dab + dbc.
Proof.
  apply (distance_triangle example_graph "A" "B" "C").
  - exact example_graph_nonneg.
  - exact example_graph_A_B.
  - exact example_graph_B_C.
Defined.

(** C9: for every graph, every start node and every weight the main loop
    ends: a turn that pops a node seen before pushes nothing, a turn that
    pops a new node puts it in the visited set and pushes at most one entry
    per out-edge, so that queue length plus out-edges of unvisited keys goes
    down at every turn; one unit of fuel for the seed and one per stored
    edge empties the queue, and [dijkstra] returns. *)
Theorem dijkstra_loop_terminates g start :
  (∀ st cur_d u pq',
     let st' := loop_body g st cur_d u pq' in
     (u ∈ s_visited st → s_pq st' = pq' ∧ s_visited st' = s_visited st) ∧
     (u ∉ s_visited st →
        s_visited st' = {[u]} ∪ s_visited st ∧
        ∃ pushed, s_pq st' = pq' ++ pushed ∧
                  (length pushed ≤ length (neighbors g u))%nat)) ∧
  (∀ st st',
     dijkstra_step g st = Some st' →
     (loop_measure g st' < loop_measure g st)%nat) ∧
  (∃ st, dijkstra_loop (S (edge_count g)) g (init_state start) = Some st ∧
         s_pq st = [] ∧
         dijkstra g start = Some (mkResult (s_dist st) (s_prev st)) ∧
         ∀ fuel, (S (edge_count g) ≤ fuel)%nat →
                 dijkstra_loop fuel g (init_state start) = Some st).
Proof.
  split_and!.
  - apply loop_body_pushes.
  - apply step_measure.
  - destruct (loop_total g (S (edge_count g)) (init_state start)) as [st Hst];
      [by rewrite init_measure|].
    exists st. split_and!.
    + done.
    + by eapply loop_done.
    + unfold dijkstra, dijkstra_fuel. by rewrite Hst.
    + intros fuel Hf. by eapply loop_fuel_mono.
Qed.

(** C10: under non-negative weights the predecessor map of [dijkstra] is
    grounded and acyclic: from every key the parent links lead to the start
    through a list of nodes without repetition; and [rebuild_path] ends for
    every target, with [size prev] turns of its loop or any larger fuel. *)
Theorem prev_grounded_acyclic g start :
  nonneg_weights g →
  ∃ r, dijkstra g start = Some r ∧
       (∀ v, is_Some (prev r !! v) →
             ∃ l es, pred_chain (prev r) start v l es ∧
                     head l = Some v ∧ last l = Some start ∧ NoDup l) ∧
       (∀ target,
          ∃ es, rebuild_path (prev r) start target = Some es ∧
                ∀ fuel, (size (prev r) ≤ fuel)%nat →
                        rebuild_path_fuel fuel (prev r) start target = Some es).
Proof.
  intros Hnn.
  destruct (dijkstra_final g start Hnn) as (st & Hr & Hinv & Hpq).
  eexists. split; [exact Hr|]. simpl.
  assert (∀ v, is_Some (s_prev st !! v) →
               ∃ l es, pred_chain (s_prev st) start v l es) as Hchain.
  { intros v [[par e] Hp].
    destruct (di_prev _ _ _ _ Hinv _ _ _ Hp) as (_ & _ & _ & _ & dp & _ & Hd).
    destruct (final_chain g start st v _ Hinv Hpq Hd) as (l & es & Hc & _).
    by exists l, es. }
  split.
  - intros v Hv. destruct (Hchain v Hv) as (l & es & Hc).
    exists l, es. destruct (pred_chain_ends _ _ _ _ _ Hc) as [H1 H2].
    split_and!; [done|done|done|]. by eapply pred_chain_NoDup.
  - intros target. destruct (s_prev st !! target) as [pe|] eqn:E.
    + destruct (Hchain target) as (l & es & Hc); [by eexists|].
      exists es. split.
      * unfold rebuild_path. by apply (rebuild_path_fuel_chain _ _ _ _ l).
      * intros fuel Hf. by apply (rebuild_path_fuel_chain _ _ _ _ l).
    + exists []. split.
      * unfold rebuild_path. by apply rebuild_path_fuel_absent.
      * intros fuel _. by apply rebuild_path_fuel_absent.
Qed.

Lemma prev_grounded_acyclic_witness :
  ∃ r, dijkstra example_graph "A" = Some r ∧
       (∀ v, is_Some (prev r !! v) →
             ∃ l es, pred_chain (prev r) "A" v l es ∧
                     head l = Some v ∧ last l = Some "A" ∧ NoDup l) ∧
       (∀ target,
          ∃ es, rebuild_path (prev r) "A" target = Some es ∧
                ∀ fuel, (size (prev r) ≤ fuel)%nat →
                        rebuild_path_fuel fuel (prev r) "A" target = Some es).
Proof.
  apply (prev_grounded_acyclic example_graph "A").
  exact example_graph_nonneg.
Defined.

(** The specification's hub example: hub [H], default weights (10, 10),
    override (1, 1) for [X]; the query from [X] to [H] costs 1. *)
Example hub_override_query :
  main_query
    (add_core_connectivity empty_graph ["X"; "Y"] "H" 10 10 {["X" := (1, 1)]})
    [] "X" "H" =
  Some (PathFound (Finite 1) [mkEdge "X" "H" "route_to_core" 1] []).
Proof. vm_compute. reflexivity. Qed.

(** Over the integers: for every graph, node list, hub, default weights and
    overrides
    (whatever their sign), after one run of [add_core_connectivity] every
    two covered nodes [a], [b] are joined by the two hub edges
    [a -> core -> b], carrying the weights configured for [a] and [b], and
    [dijkstra] from [a] gives [b] a finite distance; when no weight of the
    augmented graph is negative that distance is at most the weight of the
    detour. *)
Theorem core_connectivity_reaches g ns c dt df ov a b :
  a ∈ ns → b ∈ ns →
  let g' := add_core_connectivity g ns c dt df ov in
  let wa := default (dt, df) (ov !! a) in
  let wb := default (dt, df) (ov !! b) in
  walk g' a [mkEdge a c "route_to_core" wa.1;
             mkEdge c b "route_from_core" wb.2] b ∧
  ∃ r d, dijkstra g' a = Some r ∧ dist r !! b = Some d ∧
         dist_get (dist r) b = Finite d ∧
         (nonneg_weights g' → d ≤ wa.1 + wb.2).
Proof.
  intros Ha Hb. simpl.
  destruct (add_core_connectivity_edges g ns c dt df ov a Ha) as [Hto _].
  destruct (add_core_connectivity_edges g ns c dt df ov b Hb) as [_ Hfrom].
  simpl in Hto, Hfrom.
  set (g' := add_core_connectivity g ns c dt df ov) in *.
  set (wa := default (dt, df) (ov !! a)) in *.
  set (wb := default (dt, df) (ov !! b)) in *.
  assert (walk g' a [mkEdge a c "route_to_core" wa.1;
                     mkEdge c b "route_from_core" wb.2] b) as Hw.
  { apply walk_cons; [exact Hto|]. simpl.
    apply walk_cons; [exact Hfrom|]. simpl. apply walk_nil. }
  split; [exact Hw|].
  destruct (dijkstra_dist_reachable g' a) as (r & Hr & Hreach).
  destruct (proj2 (Hreach b) (ex_intro _ _ Hw)) as [d Hd].
  exists r, d. split_and!; [done|done|unfold dist_get; by rewrite Hd|].
  intros Hnn. destruct (dijkstra_spec g' a Hnn) as (r' & Hr' & _ & _ & Hsh).
  rewrite Hr in Hr'. injection Hr' as <-.
  destruct (Hsh _ _ Hd) as [_ Hmin]. specialize (Hmin _ Hw).
  simpl in Hmin. lia.
Qed.

Lemma core_connectivity_reaches_witness :
  let ov : gmap string (Z * Z) := {["C" := (1, 2)]} in
  let g' := add_core_connectivity example_graph ["A"; "C"] "H" 10 10 ov in
  let wa := default (10, 10) (ov !! "C") in
  let wb := default (10, 10) (ov !! "A") in
  walk g' "C" [mkEdge "C" "H" "route_to_core" wa.1;
               mkEdge "H" "A" "route_from_core" wb.2] "A" ∧
  ∃ r d, dijkstra g' "C" = Some r ∧ dist r !! "A" = Some d ∧
         dist_get (dist r) "A" = Finite d ∧
         (nonneg_weights g' → d ≤ wa.1 + wb.2).
Proof.
  intros ov.
  apply (core_connectivity_reaches example_graph ["A"; "C"] "H" 10 10 ov
           "C" "A").
  - apply list_elem_of_In. simpl. auto.
  - apply list_elem_of_In. simpl. auto.
Defined.

(** The specification's isolated-node example: a target without a path is
    reported with cost [Infinity] and no edge. *)
Example isolated_target_query :
  main_query (add_edge example_graph "D" "D" "self" 0) [] "A" "D" =
  Some (PathFound Infinity [] []).
Proof. vm_compute. reflexivity. Qed.




(** C8: after every run of [add_edge] and [add_core_connectivity] from the
    empty graph, the destination of every stored edge is a key of the
    adjacency map; and [neighbors] answers the empty list for a node that
    is not a key. *)
Theorem store_invariant ops :
  let g := run_ops ops in
  (∀ u es e, adj g !! u = Some es → e ∈ es → is_Some (adj g !! dst e)) ∧
  (∀ node, adj g !! node = None → neighbors g node = []).
Proof.
  simpl. split.
  - intros u es e Hu He. apply (run_ops_dst_closed ops u).
    unfold neighbors. by rewrite Hu.
  - intros node Hn. unfold neighbors. by rewrite Hn.
Qed.

(** ** Remarks on the demo and on the functions below [main] *)

(** [dijkstra] itself has no guard: from a start that is not a key it
    returns the one-entry distance map.  The guards are those of [main]. *)
Remark dijkstra_unknown_start g start :
  adj g !! start = None →
  dijkstra g start = Some (mkResult {[start := 0]} ∅).
Proof.
  intros Hs. unfold dijkstra, dijkstra_fuel. simpl.
  unfold dijkstra_step. simpl.
  rewrite decide_True by done. simpl.
  unfold loop_body. simpl.
  rewrite decide_False by set_solver.
  unfold dist_get. rewrite lookup_singleton_eq. simpl.
  unfold neighbors. rewrite Hs. simpl.
  by destruct (edge_count g).
Qed.

(** The demo graph: with the default start the cheapest way to the finance
    database costs 12, and the six assets are ranked. *)
Example main_default_start :
  ∃ path,
    main "" "Finance_Database" =
    Some (PathFound (Finite 12) path
            [("Customer_Database", Finite 7); ("Orders_Database", Finite 8);
             ("Finance_Database", Finite 12); ("HR_Database", Finite 12);
             ("vault:secrets", Finite 13); ("Logs", Finite 15)]) ∧
    length path = 7%nat.
Proof. eexists. vm_compute. split; reflexivity. Qed.

Example demo_graph_wellformed :
  nonneg_weights build_demo_graph ∧ keyed build_demo_graph.
Proof.
  split; [apply nonneg_weightsb_spec|apply keyedb_spec]; vm_compute; reflexivity.
Qed.

(** * Further properties of the code *)

(** ** The graph store *)

Lemma edge_count_insert (m : gmap string (list Edge)) k l l' :
  m !! k = Some l →
  (edge_count (mkGraph (<[k := l']> m)) + length l =
   edge_count (mkGraph m) + length l')%nat.
Proof.
  intros Hk. unfold edge_count. simpl.
  rewrite <- (insert_delete_eq m k l').
  rewrite (sum_list_with_Permutation_proper _ _ _
             (map_to_list_insert (delete k m) k l' (lookup_delete_eq m k))).
  rewrite <- (sum_list_with_Permutation_proper _ _ _
                (map_to_list_delete m k l Hk)).
  simpl. lia.
Qed.

Lemma edge_count_setdefault a k :
  edge_count (mkGraph (setdefault_nil a k)) = edge_count (mkGraph a).
Proof.
  unfold setdefault_nil. destruct (a !! k) eqn:E; [done|].
  unfold edge_count. simpl.
  by rewrite (sum_list_with_Permutation_proper _ _ _
                (map_to_list_insert a k [] E)).
Qed.

Lemma setdefault_nil_lookup a k :
  setdefault_nil a k !! k = Some (default [] (a !! k)).
Proof.
  unfold setdefault_nil. destruct (a !! k) eqn:E; simpl.
  - by rewrite E.
  - by rewrite lookup_insert_eq.
Qed.

Lemma edge_count_add_edge g s d r w :
  edge_count (add_edge g s d r w) = S (edge_count g).
Proof.
  unfold add_edge. rewrite edge_count_setdefault.
  pose proof (edge_count_insert (setdefault_nil (adj g) s) s _
                (default [] (setdefault_nil (adj g) s !! s) ++ [mkEdge s d r w])
                (setdefault_nil_lookup (adj g) s)) as H.
  rewrite edge_count_setdefault in H.
  rewrite setdefault_nil_lookup in H. simpl in H.
  rewrite setdefault_nil_lookup. simpl.
  rewrite length_app in H. simpl in H.
  destruct g as [a]. simpl in *. lia.
Qed.

Lemma connect_node_keys c dt df ov g n k :
  is_Some (adj (connect_node c dt df ov g n) !! k) ↔
  k = c ∨ k = n ∨ is_Some (adj g !! k).
Proof.
  unfold connect_node. destruct (default (dt, df) (ov !! n)) as [tw fw].
  rewrite !add_edge_keys. tauto.
Qed.

Lemma connect_fold_keys c dt df ov ns g k :
  is_Some (adj g !! c) →
  is_Some (adj (fold_left (connect_node c dt df ov) ns g) !! k) ↔
  k ∈ ns ∨ is_Some (adj g !! k).
Proof.
  revert g. induction ns as [|n ns IH]; intros g Hc; simpl.
  - split; [by right|]. intros [H|H]; [by apply elem_of_nil in H|done].
  - rewrite IH by (apply connect_node_keys; by left).
    rewrite connect_node_keys, elem_of_cons. split.
    + intros [H|[->|[->|H]]]; auto.
    + intros [[->|H]|H]; auto.
Qed.

Lemma connect_node_count c dt df ov g n :
  edge_count (connect_node c dt df ov g n) = S (S (edge_count g)).
Proof.
  unfold connect_node. destruct (default (dt, df) (ov !! n)) as [tw fw].
  by rewrite !edge_count_add_edge.
Qed.

Lemma connect_fold_count c dt df ov ns g :
  edge_count (fold_left (connect_node c dt df ov) ns g) =
  (edge_count g + 2 * length ns)%nat.
Proof.
  revert g. induction ns as [|n ns IH]; intros g; simpl; [lia|].
  rewrite IH, connect_node_count. lia.
Qed.

Lemma apply_op_mono g op u e :
  e ∈ neighbors g u → e ∈ neighbors (apply_op g op) u.
Proof.
  intros He. destruct op; simpl.
  - by apply neighbors_add_edge_mono.
  - unfold add_core_connectivity.
    by apply connect_fold_mono, neighbors_add_edge_mono.
Qed.

Lemma apply_ops_mono ops g u e :
  e ∈ neighbors g u → e ∈ neighbors (fold_left apply_op ops g) u.
Proof.
  revert g. induction ops as [|op ops IH]; intros g He; simpl; [done|].
  by apply IH, apply_op_mono.
Qed.

Lemma walk_mono g g' s es t :
  (∀ u e, e ∈ neighbors g u → e ∈ neighbors g' u) →
  walk g s es t → walk g' s es t.
Proof.
  intros Hsub. induction 1 as [s|s e es t He Hw IH]; constructor; auto.
Qed.

(** X1: [add_edge] appends the new edge at the end of the list of its
    source and leaves the list of every other node as it was; in
    particular nothing is removed or reordered, and a duplicate is stored
    again. *)
Theorem add_edge_neighbors g s d r w u :
  neighbors (add_edge g s d r w) u =
  if decide (u = s) then neighbors g s ++ [mkEdge s d r w] else neighbors g u.
Proof. apply neighbors_add_edge. Qed.

(** X2: [nodes] lists every key once, and after [add_edge] the nodes are
    the old ones together with the source and the destination. *)
Theorem nodes_add_edge g s d r w :
  NoDup (nodes g) ∧
  ∀ k, k ∈ nodes (add_edge g s d r w) ↔ k = s ∨ k = d ∨ k ∈ nodes g.
Proof.
  split; [apply NoDup_fst_map_to_list|].
  assert (∀ g' k, k ∈ nodes g' ↔ is_Some (adj g' !! k)) as Hn.
  { intros g' k. rewrite <- in_nodes. by rewrite elem_of_list_to_set. }
  intros k. rewrite !Hn. apply add_edge_keys.
Qed.

(** X3: after every run of [add_edge] and [add_core_connectivity] from the
    empty graph, every edge is stored in the list of its own source. *)
Theorem store_edges_keyed ops :
  ∀ u es e, adj (run_ops ops) !! u = Some es → e ∈ es → src e = u.
Proof.
  intros u es e Hu He. apply (run_ops_keyed ops).
  unfold neighbors. by rewrite Hu.
Qed.

Lemma store_edges_keyed_witness :
  src (mkEdge "C" "H" "route_to_core" 7) = "C".
Proof.
  apply (store_edges_keyed
           [OpAddEdge "A" "B" "ab" 1;
            OpCoreConnectivity ["C"] "H" 7 9 ∅]
           "C" [mkEdge "C" "H" "route_to_core" 7]).
  - vm_compute. reflexivity.
  - apply list_elem_of_In. simpl. auto.
Defined.

(** X4: nothing is deduplicated: [add_edge] always stores one more edge,
    and [add_core_connectivity] stores the hub loop and two edges per
    listed node, repetitions in the list included. *)
Theorem edge_count_grows g s d r w ns c dt df ov :
  edge_count (add_edge g s d r w) = S (edge_count g) ∧
  edge_count (add_core_connectivity g ns c dt df ov) =
    (edge_count g + 1 + 2 * length ns)%nat.
Proof.
  split; [apply edge_count_add_edge|].
  unfold add_core_connectivity.
  rewrite connect_fold_count, edge_count_add_edge. lia.
Qed.

(** X5: after [add_core_connectivity] the keys of the graph are the old
    keys, the hub and the listed nodes, and the hub carries its loop of
    weight 0, also when the node list is empty. *)
Theorem core_connectivity_keys g ns c dt df ov :
  let g' := add_core_connectivity g ns c dt df ov in
  (∀ k, is_Some (adj g' !! k) ↔ k = c ∨ k ∈ ns ∨ is_Some (adj g !! k)) ∧
  mkEdge c c "noop" 0 ∈ neighbors g' c.
Proof.
  simpl. unfold add_core_connectivity. split.
  - intros k. rewrite connect_fold_keys by (apply add_edge_keys; by left).
    rewrite add_edge_keys. tauto.
  - apply connect_fold_mono, neighbors_add_edge_new.
Qed.

(** ** The main loop, for every weight *)

Lemma run_turns_queue_inv g start n st st' :
  queue_inv (expanded g (s_visited st)) start st →
  run_turns n g st = Some st' →
  queue_inv (expanded g (s_visited st')) start st'.
Proof.
  revert st. induction n as [|n IH]; intros st Hinv; simpl.
  - by intros [= <-].
  - unfold dijkstra_step.
    destruct (heappop (s_pq st)) as [[[cur_d u] pq']|] eqn:Hpop; [|done].
    intros H. eapply IH; [|exact H]. by apply loop_body_queue_inv.
Qed.

Lemma relax_edge_dist_mono u cur_d st e v d :
  s_dist st !! v = Some d →
  ∃ d', s_dist (relax_edge u cur_d st e) !! v = Some d' ∧ d' ≤ d.
Proof.
  intros Hv. unfold relax_edge. destruct (cost_ltb _ _) eqn:E; simpl.
  - destruct (decide (v = dst e)) as [->|Hne].
    + rewrite lookup_insert_eq. eexists. split; [done|].
      apply cost_ltb_Finite in E as [E|(dv & E & Hlt)]; [congruence|].
      rewrite Hv in E. injection E as <-. lia.
    + rewrite lookup_insert_ne by done. exists d. split; [done|lia].
  - exists d. split; [done|lia].
Qed.

Lemma relax_fold_dist_mono u cur_d es st v d :
  s_dist st !! v = Some d →
  ∃ d', s_dist (fold_left (relax_edge u cur_d) es st) !! v = Some d' ∧ d' ≤ d.
Proof.
  revert st d. induction es as [|e es IH]; intros st d Hv; simpl.
  - exists d. split; [done|lia].
  - destruct (relax_edge_dist_mono u cur_d st e v d Hv) as (d1 & H1 & Hle1).
    destruct (IH _ _ H1) as (d2 & H2 & Hle2).
    exists d2. split; [done|lia].
Qed.

(** The keys of [prev] are keys of [dist], whatever the weights. *)
Lemma relax_fold_prev_keys u cur_d es st :
  (∀ v, is_Some (s_prev st !! v) → is_Some (s_dist st !! v)) →
  ∀ v, is_Some (s_prev (fold_left (relax_edge u cur_d) es st) !! v) →
       is_Some (s_dist (fold_left (relax_edge u cur_d) es st) !! v).
Proof.
  revert st. induction es as [|e es IH]; intros st Hst; simpl; [done|].
  apply IH. unfold relax_edge. destruct (cost_ltb _ _); [|done].
  simpl. intros v. destruct (decide (v = dst e)) as [->|Hne].
  - intros _. rewrite lookup_insert_eq. by eexists.
  - rewrite !lookup_insert_ne by done. apply Hst.
Qed.

Lemma loop_prev_keys fuel g st st' :
  (∀ v, is_Some (s_prev st !! v) → is_Some (s_dist st !! v)) →
  dijkstra_loop fuel g st = Some st' →
  ∀ v, is_Some (s_prev st' !! v) → is_Some (s_dist st' !! v).
Proof.
  revert st. induction fuel as [|f IH]; intros st Hst; simpl;
    unfold dijkstra_step;
    destruct (heappop (s_pq st)) as [[[cur_d u] pq']|] eqn:Hpop;
    try done; try (by intros [= <-]).
  intros H. eapply IH; [|exact H].
  unfold loop_body. destruct (decide _); [done|]. destruct (negb _); [done|].
  by apply relax_fold_prev_keys.
Qed.

(** Over the integers: for every weight, [dijkstra] records a distance for
    exactly the
    nodes that a walk from the start arrives at. *)
Theorem dist_keys_reachable_any_weight g start :
  ∃ r, dijkstra g start = Some r ∧
       ∀ v, is_Some (dist r !! v) ↔ reachable g start v.
Proof. apply dijkstra_dist_reachable. Qed.

(** X7: the test of line 57 never sends the loop back: in every state the
    loop passes through, for every weight, a node popped for the first time
    is popped with its current distance. *)
Theorem stale_guard_never_fires g start n st cur_d u pq' :
  run_turns n g (init_state start) = Some st →
  heappop (s_pq st) = Some ((cur_d, u), pq') →
  u ∉ s_visited st →
  dist_get (s_dist st) u = Finite cur_d ∧
  negb (cost_eqb (Finite cur_d) (dist_get (s_dist st) u)) = false.
Proof.
  intros Hrun Hpop Hu.
  pose proof (run_turns_queue_inv g start n (init_state start) st
                (queue_inv_init g start) Hrun) as Hinv.
  pose proof (first_pop_current _ _ _ _ _ _ Hinv Hpop Hu) as Hcur.
  split; [unfold dist_get; by rewrite Hcur|by apply cost_eqb_current].
Qed.

Lemma stale_guard_never_fires_witness :
  ∃ st pq',
    run_turns 1 example_graph (init_state "A") = Some st ∧
    heappop (s_pq st) = Some ((1, "B"), pq') ∧
    dist_get (s_dist st) "B" = Finite 1 ∧
    negb (cost_eqb (Finite 1) (dist_get (s_dist st) "B")) = false.
Proof.
  eexists _, _. split; [vm_compute; reflexivity|].
  split; [vm_compute; reflexivity|].
  eapply (stale_guard_never_fires example_graph "A" 1 _ 1 "B").
  - vm_compute. reflexivity.
  - vm_compute. reflexivity.
  - vm_compute. intros H. discriminate H.
Defined.

(** X8: in one turn of the loop, for every weight, no distance is removed
    or raised and no node leaves the visited set. *)
Theorem loop_body_monotone g st cur_d u pq' :
  let st' := loop_body g st cur_d u pq' in
  (∀ v d, s_dist st !! v = Some d → ∃ d', s_dist st' !! v = Some d' ∧ d' ≤ d) ∧
  s_visited st ⊆ s_visited st'.
Proof.
  simpl. split.
  - intros v d Hv. unfold loop_body.
    destruct (decide _); [exists d; split; [done|lia]|].
    destruct (negb _); [exists d; split; [done|lia]|].
    by apply relax_fold_dist_mono.
  - destruct (loop_body_pushes g st cur_d u pq') as [Hseen Hnew].
    destruct (decide (u ∈ s_visited st)) as [Hu|Hu].
    + destruct (Hseen Hu) as [_ ->]. done.
    + destruct (Hnew Hu) as [-> _]. apply union_subseteq_r.
Qed.

(** Over the integers, more edges never hurt: when a graph is extended by
    [add_edge] and
    [add_core_connectivity] and the result has no negative weight, every
    node reachable before is still reachable and its computed distance is
    not larger than before. *)
Theorem more_edges_not_farther g ops s t :
  let g' := fold_left apply_op ops g in
  nonneg_weights g' → reachable g s t →
  ∃ r r' d d',
    dijkstra g s = Some r ∧ dijkstra g' s = Some r' ∧
    dist r !! t = Some d ∧ dist r' !! t = Some d' ∧ d' ≤ d.
Proof.
  simpl. intros Hnn' Hreach.
  assert (∀ u e, e ∈ neighbors g u →
                 e ∈ neighbors (fold_left apply_op ops g) u) as Hsub
    by (intros u e; apply apply_ops_mono).
  assert (nonneg_weights g) as Hnn by (intros u e He; eapply Hnn', Hsub, He).
  destruct (dijkstra_spec g s Hnn) as (r & Hr & _ & Hk & Hsh).
  destruct (dijkstra_spec _ s Hnn') as (r' & Hr' & _ & Hk' & Hsh').
  destruct (proj2 (Hk t) Hreach) as [d Hd].
  destruct (Hsh _ _ Hd) as [(es & Hw & Hpw) _].
  pose proof (walk_mono g _ _ _ _ Hsub Hw) as Hw'.
  destruct (proj2 (Hk' t) (ex_intro _ _ Hw')) as [d' Hd'].
  exists r, r', d, d'. split_and!; try done.
  destruct (Hsh' _ _ Hd') as [_ Hmin]. specialize (Hmin _ Hw'). lia.
Qed.

Lemma more_edges_not_farther_witness :
  let g' := fold_left apply_op [OpAddEdge "A" "C" "short" 1] example_graph in
  ∃ r r' d d',
    dijkstra example_graph "A" = Some r ∧ dijkstra g' "A" = Some r' ∧
    dist r !! "C" = Some d ∧ dist r' !! "C" = Some d' ∧ d' ≤ d.
Proof.
  apply (more_edges_not_farther example_graph
           [OpAddEdge "A" "C" "short" 1] "A" "C").
  - apply nonneg_weightsb_spec. vm_compute. reflexivity.
  - exact example_graph_A_C.
Defined.

(** ** The predecessor map under non-negative weights *)

Lemma chain_nodes g X start st v l es :
  dist_inv g X start st →
  pred_chain (s_prev st) start v l es →
  start :: map dst es = rev l.
Proof.
  intros Hinv. induction 1 as [|v par e l es Hv Hp Hc IH]; [done|].
  destruct (di_prev _ _ _ _ Hinv _ _ _ Hp) as (_ & _ & Hdst & _).
  rewrite map_app. simpl. rewrite <- IH. simpl. by rewrite Hdst.
Qed.

(** X10: under non-negative weights the predecessor map is a tree of
    shortest paths: the start has no parent, every other node has a parent
    exactly when it has a distance, every link is a stored edge into the
    node whose weight is the difference of the two distances, and no
    distance is negative. *)
Theorem prev_is_shortest_path_tree g start :
  nonneg_weights g →
  ∃ r, dijkstra g start = Some r ∧
       prev r !! start = None ∧
       (∀ v, v ≠ start → is_Some (prev r !! v) ↔ is_Some (dist r !! v)) ∧
       (∀ v par e,
          prev r !! v = Some (par, e) →
          e ∈ neighbors g par ∧ dst e = v ∧
          ∃ dp, dist r !! par = Some dp ∧ dist r !! v = Some (dp + weight e)) ∧
       (∀ v d, dist r !! v = Some d → 0 ≤ d).
Proof.
  intros Hnn.
  destruct (dijkstra_final g start Hnn) as (st & Hr & Hinv & Hpq).
  eexists. split; [exact Hr|]. simpl. split_and!.
  - destruct (s_prev st !! start) as [[par e]|] eqn:E; [|done].
    by destruct (di_prev _ _ _ _ Hinv _ _ _ E) as (_ & _ & _ & ? & _).
  - intros v Hv. split.
    + intros [[par e] Hp].
      destruct (di_prev _ _ _ _ Hinv _ _ _ Hp) as (_ & _ & _ & _ & dp & _ & H).
      by eexists.
    + intros [d Hd]. by eapply (di_has_prev g).
  - intros v par e Hp.
    destruct (di_prev _ _ _ _ Hinv _ _ _ Hp) as (_ & He & Hd & _ & H).
    done.
  - intros v d Hd.
    destruct (di_real _ _ _ _ Hinv _ _ Hd) as (es & Hw & <-).
    by eapply walk_nonneg.
Qed.

Lemma prev_is_shortest_path_tree_witness :
  ∃ r, dijkstra example_graph "A" = Some r ∧
       prev r !! "A" = None ∧
       (∀ v, v ≠ "A" → is_Some (prev r !! v) ↔ is_Some (dist r !! v)) ∧
       (∀ v par e,
          prev r !! v = Some (par, e) →
          e ∈ neighbors example_graph par ∧ dst e = v ∧
          ∃ dp, dist r !! par = Some dp ∧ dist r !! v = Some (dp + weight e)) ∧
       (∀ v d, dist r !! v = Some d → 0 ≤ d).
Proof.
  apply (prev_is_shortest_path_tree example_graph "A").
  exact example_graph_nonneg.
Defined.

(** X11: under non-negative weights the rebuilt path to a reachable target
    passes no node twice, the start included, and has at most as many edges
    as the predecessor map has keys. *)
Theorem rebuilt_path_simple g s t :
  nonneg_weights g → reachable g s t →
  ∃ r es,
    dijkstra g s = Some r ∧ rebuild_path (prev r) s t = Some es ∧
    NoDup (s :: map dst es) ∧ (length es ≤ size (prev r))%nat.
Proof.
  intros Hnn [p Hp].
  destruct (dijkstra_final g s Hnn) as (st & Hr & Hinv & Hpq).
  destruct (queue_inv_done_reachable g s st p t (di_queue _ _ _ _ Hinv) Hpq Hp)
    as [d Hd].
  destruct (final_chain g s st t d Hinv Hpq Hd) as (l & es & Hc & _).
  exists (mkResult (s_dist st) (s_prev st)), es. simpl.
  pose proof (chain_nodes _ _ _ _ _ _ _ Hinv Hc) as Hn.
  split_and!.
  - done.
  - unfold rebuild_path. by apply (rebuild_path_fuel_chain _ _ _ _ l).
  - rewrite Hn, <- (Permutation_rev l). by eapply pred_chain_NoDup.
  - pose proof (pred_chain_length _ _ _ _ _ Hc) as Hlen.
    apply (f_equal length) in Hn. rewrite length_rev in Hn. simpl in Hn.
    rewrite length_map in Hn. lia.
Qed.

Lemma rebuilt_path_simple_witness :
  ∃ r es,
    dijkstra example_graph "A" = Some r ∧
    rebuild_path (prev r) "A" "C" = Some es ∧
    NoDup ("A" :: map dst es) ∧ (length es ≤ size (prev r))%nat.
Proof.
  apply (rebuilt_path_simple example_graph "A" "C").
  - exact example_graph_nonneg.
  - exact example_graph_A_C.
Defined.

(** ** The query of [main] *)

Lemma dijkstra_final_any g start :
  ∃ r, dijkstra g start = Some r ∧
       (∀ v, is_Some (dist r !! v) ↔ reachable g start v) ∧
       (∀ v, is_Some (prev r !! v) → is_Some (dist r !! v)).
Proof.
  destruct (dijkstra_dist_reachable g start) as (r & Hr & Hreach).
  exists r. split_and!; [done|done|].
  unfold dijkstra, dijkstra_fuel in Hr.
  destruct (dijkstra_loop _ g (init_state start)) as [st|] eqn:Hst; [|done].
  injection Hr as <-. simpl.
  apply (loop_prev_keys (S (edge_count g)) g (init_state start) st); [|done].
  simpl. intros v [x Hx]. by rewrite lookup_empty in Hx.
Qed.

Lemma main_query_guards g assets0 s t :
  is_Some (adj g !! s) → is_Some (adj g !! t) →
  main_query g assets0 s t =
  match dijkstra g s with
  | None => None
  | Some res =>
      match rebuild_path (prev res) s t with
      | None => None
      | Some path =>
          Some (PathFound (dist_get (dist res) t) path (rank (dist res) assets0))
      end
  end.
Proof.
  intros Hs%in_nodes Ht%in_nodes. unfold main_query.
  destruct (decide (s ∉ list_to_set (nodes g))) as [H|_]; [by destruct H|].
  destruct (decide (t ∉ list_to_set (nodes g))) as [H|_]; [by destruct H|].
  done.
Qed.

(** Over the integers: under non-negative weights a query between two nodes
    of the
    graph, the target reachable from the start, is answered with the least
    walk weight as cost and a walk of exactly that weight as path (the
    empty one when the target is the start). *)
Theorem main_query_reachable g assets0 s t :
  nonneg_weights g → is_Some (adj g !! s) → is_Some (adj g !! t) →
  reachable g s t →
  ∃ r d es,
    dijkstra g s = Some r ∧
    main_query g assets0 s t =
      Some (PathFound (Finite d) es (rank (dist r) assets0)) ∧
    shortest g s t d ∧ walk g s es t ∧ path_weight es = d.
Proof.
  intros Hnn Hs Ht [p Hp].
  destruct (dijkstra_final g s Hnn) as (st & Hr & Hinv & Hpq).
  destruct (queue_inv_done_reachable g s st p t (di_queue _ _ _ _ Hinv) Hpq Hp)
    as [d Hd].
  destruct (final_chain g s st t d Hinv Hpq Hd) as (l & es & Hc & Hw & Hpw).
  exists (mkResult (s_dist st) (s_prev st)), d, es.
  split_and!; [done| |by eapply final_shortest|done|done].
  rewrite main_query_guards, Hr by done. simpl.
  unfold rebuild_path.
  rewrite (rebuild_path_fuel_chain _ _ _ _ l es Hc) by done.
  unfold dist_get. by rewrite Hd.
Qed.

Lemma main_query_reachable_witness :
  ∃ r d es,
    dijkstra example_graph "A" = Some r ∧
    main_query example_graph ["B"] "A" "C" =
      Some (PathFound (Finite d) es (rank (dist r) ["B"])) ∧
    shortest example_graph "A" "C" d ∧ walk example_graph "A" es "C" ∧
    path_weight es = d.
Proof.
  apply (main_query_reachable example_graph ["B"] "A" "C").
  - exact example_graph_nonneg.
  - vm_compute. eexists. reflexivity.
  - vm_compute. eexists. reflexivity.
  - exact example_graph_A_C.
Defined.

Lemma example_graph_C_not_A : ¬ reachable example_graph "C" "A".
Proof.
  intros Hr.
  destruct (dijkstra_dist_reachable example_graph "C") as (r & Hd & Hiff).
  apply Hiff in Hr. vm_compute in Hd. injection Hd as <-.
  destruct Hr as [x Hx]. vm_compute in Hx. discriminate Hx.
Qed.

(** X13: for every weight, a query between two nodes of the graph whose
    target is not reachable is answered with cost [Infinity] and the empty
    path, the same path as for a query from a node to itself. *)
Theorem main_query_unreachable g assets0 s t :
  is_Some (adj g !! s) → is_Some (adj g !! t) → ¬ reachable g s t →
  ∃ r, dijkstra g s = Some r ∧
       main_query g assets0 s t =
         Some (PathFound Infinity [] (rank (dist r) assets0)).
Proof.
  intros Hs Ht Hn.
  destruct (dijkstra_final_any g s) as (r & Hr & Hreach & Hprev).
  exists r. split; [done|].
  rewrite main_query_guards, Hr by done.
  assert (dist r !! t = None) as Hd.
  { destruct (dist r !! t) eqn:E; [|done].
    destruct Hn. apply Hreach. by eexists. }
  assert (prev r !! t = None) as Hp.
  { destruct (prev r !! t) eqn:E; [|done].
    destruct (Hprev t) as [x Hx]; [by eexists|]. congruence. }
  unfold rebuild_path. rewrite rebuild_path_fuel_absent by done.
  unfold dist_get. by rewrite Hd.
Qed.

Lemma main_query_unreachable_witness :
  ∃ r, dijkstra example_graph "C" = Some r ∧
       main_query example_graph ["B"] "C" "A" =
         Some (PathFound Infinity [] (rank (dist r) ["B"])).
Proof.
  apply (main_query_unreachable example_graph ["B"] "C" "A").
  - vm_compute. eexists. reflexivity.
  - vm_compute. eexists. reflexivity.
  - exact example_graph_C_not_A.
Defined.

(** ** [rebuild_path] on a predecessor map with a cycle *)

Lemma rebuild_loop_cycle prev start (cyc : list string) fuel cur out_rev :
  (∀ v, v ∈ cyc → v ≠ start ∧ ∃ par e, prev !! v = Some (par, e) ∧ par ∈ cyc) →
  cur ∈ cyc →
  rebuild_loop fuel prev start cur out_rev = None.
Proof.
  intros Hcyc. revert cur out_rev.
  induction fuel as [|f IH]; intros cur out_rev Hcur;
    destruct (Hcyc _ Hcur) as (Hne & par & e & Hp & Hpar); simpl;
    rewrite decide_False by done; rewrite Hp; [done|].
  by apply IH.
Qed.

(** X14: [rebuild_path] does not end on a predecessor map with a cycle:
    when the target lies in a set of nodes that does not contain the start
    and in which every node has its parent, no number of turns of the loop
    is enough.  [dijkstra] returns such a map on a graph with a cycle of
    negative weight. *)
Theorem rebuild_path_cycle_diverges prev start target (cyc : list string) :
  target ∈ cyc →
  (∀ v, v ∈ cyc → v ≠ start ∧ ∃ par e, prev !! v = Some (par, e) ∧ par ∈ cyc) →
  ∀ fuel, rebuild_path_fuel fuel prev start target = None.
Proof.
  intros Ht Hcyc fuel. unfold rebuild_path_fuel.
  destruct (Hcyc _ Ht) as [Hne _]. rewrite decide_False by done.
  by apply (rebuild_loop_cycle prev start cyc).
Qed.

Lemma rebuild_path_cycle_diverges_witness :
  ∃ r, dijkstra negative_cycle_graph "S" = Some r ∧
       ∀ fuel, rebuild_path_fuel fuel (prev r) "S" "B" = None.
Proof.
  eexists. split; [vm_compute; reflexivity|].
  apply (rebuild_path_cycle_diverges _ "S" "B" ["A"; "B"]).
  - apply list_elem_of_In. simpl. auto.
  - intros v Hv. apply list_elem_of_In in Hv. simpl in Hv.
    destruct Hv as [<-|[<-|[]]].
    + split; [discriminate|].
      exists "B", (mkEdge "B" "A" "ba" (-5)).
      split; [vm_compute; reflexivity|apply list_elem_of_In; simpl; auto].
    + split; [discriminate|].
      exists "A", (mkEdge "A" "B" "ab" 1).
      split; [vm_compute; reflexivity|apply list_elem_of_In; simpl; auto].
Defined.

(** On that graph the query of [main] from [S] to [B] never answers. *)
Example negative_cycle_query_hangs :
  main_query negative_cycle_graph [] "S" "B" = None.
Proof. vm_compute. reflexivity. Qed.

(** ** The ranking keeps ties in order *)

Lemma cost_leb_refl c : cost_leb c c = true.
Proof. destruct c; simpl; [apply Z.leb_refl|done]. Qed.

Lemma insert_by_cost_filter (c : Cost) x l :
  filter (λ y : string * Cost, y.2 = c) (insert_by_cost x l) =
  filter (λ y : string * Cost, y.2 = c) (x :: l).
Proof.
  induction l as [|y l IH]; simpl; [done|].
  destruct (cost_leb x.2 y.2) eqn:E; [done|].
  rewrite (filter_cons _ y), IH, !(filter_cons _ x), !(filter_cons _ y).
  destruct (decide (y.2 = c)) as [Hy|Hy], (decide (x.2 = c)) as [Hx|Hx];
    try done.
  rewrite Hx, Hy, cost_leb_refl in E. done.
Qed.

(** X15: the ranking is stable: the targets that share a cost stand in the
    ranking in the order in which they were listed. *)
Theorem rank_stable d targets (c : Cost) :
  filter (λ y : string * Cost, y.2 = c) (rank d targets) =
  filter (λ y : string * Cost, y.2 = c)
         (map (λ a, (a, dist_get d a)) targets).
Proof.
  unfold rank. induction (map (λ a, (a, dist_get d a)) targets) as [|x l IH].
  - done.
  - simpl. rewrite insert_by_cost_filter, !filter_cons, IH. done.
Qed.

(** ** The demo graph is strongly connected *)

Lemma demo_nodes_covered k :
  k ∈ nodes build_demo_graph → k ∈ (other_nodes ++ assets) ++ ["net:core"].
Proof.
  assert (Forall (λ k, k ∈ (other_nodes ++ assets) ++ ["net:core"])
                 (nodes build_demo_graph)) as H.
  { apply (bool_decide_unpack _). vm_compute. reflexivity. }
  rewrite Forall_forall in H. apply H.
Qed.

Lemma demo_reachable a b :
  a ∈ (other_nodes ++ assets) ++ ["net:core"] →
  b ∈ (other_nodes ++ assets) ++ ["net:core"] →
  reachable build_demo_graph a b.
Proof.
  intros Ha Hb.
  pose proof (add_core_connectivity_edges
    (fold_left (λ g '(s, d, r, w), add_edge g s d r w) demo_edges empty_graph)
    ((other_nodes ++ assets) ++ ["net:core"]) "net:core" 30 30
    demo_overrides) as H.
  destruct (H a Ha) as [Hto _]. destruct (H b Hb) as [_ Hfrom].
  eexists [_; _].
  apply walk_cons; [exact Hto|]. apply walk_cons; [exact Hfrom|].
  apply walk_nil.
Qed.

(** X16: [main] never reports an infinite cost on the demo graph: whatever
    is typed, it names a node that is not in the graph, or it answers with
    a finite cost, a path of stored edges of that weight from the start to
    the target, and a ranking in which all six assets have a finite cost. *)
Theorem demo_main_finite start_in target :
  let start := if decide (start_in = "") then "attacker" else start_in in
  main start_in target = Some (StartNotInGraph start) ∨
  main start_in target = Some (TargetNotInGraph target) ∨
  ∃ d es ranked,
    main start_in target = Some (PathFound (Finite d) es ranked) ∧
    walk build_demo_graph start es target ∧ path_weight es = d ∧
    length ranked = 6%nat ∧ Forall (λ x, x.2 ≠ Infinity) ranked.
Proof.
  simpl. unfold main.
  set (start := if decide (start_in = "") then "attacker" else start_in).
  destruct (adj build_demo_graph !! start) as [es0|] eqn:Es.
  2:{ left. unfold main_query. rewrite decide_True; [done|].
      intros [x Hx]%in_nodes. congruence. }
  destruct (adj build_demo_graph !! target) as [es1|] eqn:Et.
  2:{ right. left. unfold main_query.
      rewrite decide_False by (intros H; apply H, in_nodes; by eexists).
      rewrite decide_True; [done|].
      intros [x Hx]%in_nodes. congruence. }
  right. right.
  assert (∀ k, is_Some (adj build_demo_graph !! k) →
               k ∈ (other_nodes ++ assets) ++ ["net:core"]) as Hcov.
  { intros k Hk. apply demo_nodes_covered.
    apply in_nodes in Hk. by apply elem_of_list_to_set in Hk. }
  assert (start ∈ (other_nodes ++ assets) ++ ["net:core"]) as Hs
    by (apply Hcov; by eexists).
  assert (target ∈ (other_nodes ++ assets) ++ ["net:core"]) as Ht
    by (apply Hcov; by eexists).
  destruct demo_graph_wellformed as [Hnn _].
  destruct (main_query_reachable build_demo_graph assets start target Hnn
              ltac:(by eexists) ltac:(by eexists) (demo_reachable _ _ Hs Ht))
    as (r & d & es & Hr & Hq & _ & Hw & Hpw).
  exists d, es, (rank (dist r) assets).
  split_and!; [done|done|done| |].
  - unfold rank. by rewrite sort_by_cost_perm, length_map.
  - destruct (dijkstra_dist_reachable build_demo_graph start)
      as (r' & Hr' & Hreach).
    rewrite Hr in Hr'. injection Hr' as <-.
    apply Forall_forall. intros [a c] Hin. simpl.
    unfold rank in Hin. rewrite sort_by_cost_perm in Hin.
    apply list_elem_of_fmap in Hin as (a' & [= -> ->] & Ha).
    assert (a' ∈ (other_nodes ++ assets) ++ ["net:core"]) as Ha'.
    { apply elem_of_app. left. apply elem_of_app. by right. }
    destruct (proj2 (Hreach a') (demo_reachable _ _ Hs Ha')) as [x Hx].
    unfold dist_get. by rewrite Hx.
Qed.

(** * Binary64 runs without rounding

    On integer weights that are small enough the run of [B64.dijkstra] is,
    number for number, the run of [dijkstra] over the integers. *)

Section Exact.

Variable B : Z.
Hypothesis HB : exact_upto B.

Lemma lift_entry_ltb x m :
  0 ≤ x.1 ≤ B → 0 ≤ m.1 ≤ B →
  B64.entry_ltb (lift_entry x) (lift_entry m) = entry_ltb x m.
Proof.
  intros Hx Hm. unfold B64.entry_ltb, entry_ltb, lift_entry. simpl.
  by rewrite (ex_ltb B HB), (ex_eqb B HB).
Qed.

Lemma lift_entry_eqb x m :
  0 ≤ x.1 ≤ B → 0 ≤ m.1 ≤ B →
  B64.entry_eqb (lift_entry x) (lift_entry m) = bool_decide (x = m).
Proof.
  intros Hx Hm. unfold B64.entry_eqb, lift_entry. simpl.
  rewrite (ex_eqb B HB) by done.
  destruct x as [a s], m as [b t]. simpl in *.
  destruct (Z.eqb_spec a b) as [->|Hab], (String.eqb_spec s t) as [->|Hst];
    simpl; symmetry.
  - by apply bool_decide_eq_true.
  - apply bool_decide_eq_false. congruence.
  - apply bool_decide_eq_false. congruence.
  - apply bool_decide_eq_false. congruence.
Qed.

Lemma heap_min_lift m l :
  entries_in B (m :: l) →
  B64.heap_min (lift_entry m) (lift_entry <$> l) = lift_entry (heap_min m l).
Proof.
  revert m. induction l as [|x l IH]; intros m Hin; simpl; [done|].
  rewrite lift_entry_ltb by (apply Hin; first [left | right; left]).
  assert (entries_in B ((if entry_ltb x m then x else m) :: l)) as Hin'.
  { intros y Hy. apply Hin. apply elem_of_cons in Hy as [->|Hy].
    - destruct (entry_ltb x m); [right; left|left].
    - right. by right. }
  rewrite <- (IH _ Hin'). by destruct (entry_ltb x m).
Qed.

Lemma remove_first_lift m l :
  0 ≤ m.1 ≤ B → entries_in B l →
  B64.remove_first (lift_entry m) (lift_entry <$> l) =
  lift_entry <$> remove_first m l.
Proof.
  intros Hm. induction l as [|x l IH]; intros Hin; simpl; [done|].
  rewrite lift_entry_eqb by (try done; apply Hin; left).
  destruct (decide (x = m)) as [->|Hne].
  - by rewrite bool_decide_eq_true_2.
  - rewrite bool_decide_eq_false_2 by done. simpl. f_equal.
    apply IH. intros y Hy. apply Hin. by right.
Qed.

Lemma heappop_lift pq :
  entries_in B pq →
  B64.heappop (lift_entry <$> pq) =
  (λ p : entry * list entry, (lift_entry p.1, lift_entry <$> p.2))
    <$> heappop pq.
Proof.
  destruct pq as [|x l]; intros Hin; [done|].
  rewrite fmap_cons. unfold B64.heappop, heappop.
  rewrite heap_min_lift by done.
  rewrite <- (fmap_cons lift_entry x l).
  rewrite (remove_first_lift (heap_min x l) (x :: l));
    [done|apply Hin, heap_min_in|done].
Qed.

Lemma dist_get_lift d v :
  B64.dist_get (Z2F <$> d) v = lift_cost (dist_get d v).
Proof.
  unfold B64.dist_get, dist_get. rewrite lookup_fmap.
  by destruct (d !! v).
Qed.

Lemma bounded_mono K K' st : K ≤ K' → bounded K st → bounded K' st.
Proof.
  intros HK [H1 H2]. split.
  - intros v d Hv. specialize (H1 _ _ Hv). lia.
  - intros x Hx. specialize (H2 _ Hx). lia.
Qed.

Lemma relax_edge_bounded K u cur st e :
  bounded K st → 0 ≤ cur + weight e ≤ K →
  bounded K (relax_edge u cur st e).
Proof.
  intros [H1 H2] Hnd. unfold relax_edge.
  destruct (cost_ltb _ _); [|done]. split; simpl.
  - intros v d. destruct (decide (v = dst e)) as [->|Hne].
    + rewrite lookup_insert_eq. intros [= <-]. done.
    + rewrite lookup_insert_ne by done. apply H1.
  - intros x Hx. unfold heappush in Hx.
    apply elem_of_app in Hx as [Hx|Hx%list_elem_of_singleton]; [by apply H2|].
    by subst x.
Qed.

Lemma relax_edge_lift u cur st e :
  bounded B st → 0 ≤ cur → 0 ≤ weight e → cur + weight e ≤ B →
  B64.relax_edge u (Z2F cur) (lift_state st) (lift_edge e) =
  lift_state (relax_edge u cur st e).
Proof.
  intros [H1 H2] Hc Hw Hnd. unfold B64.relax_edge, relax_edge.
  change (B64.dst (lift_edge e)) with (dst e).
  change (B64.weight (lift_edge e)) with (Z2F (weight e)).
  change (B64.s_dist (lift_state st)) with (Z2F <$> s_dist st).
  cbv zeta. rewrite (ex_add B HB) by done. rewrite dist_get_lift.
  assert (PrimFloat.ltb (Z2F (cur + weight e))
            (lift_cost (dist_get (s_dist st) (dst e))) =
          cost_ltb (Finite (cur + weight e)) (dist_get (s_dist st) (dst e)))
    as ->.
  { unfold dist_get. destruct (s_dist st !! dst e) as [dv|] eqn:E; simpl.
    - apply (ex_ltb B HB); [lia|]. by apply (H1 (dst e)).
    - apply (ex_lt_inf B HB). lia. }
  destruct (cost_ltb _ _); [|done].
  unfold lift_state, B64.heappush, heappush. simpl.
  by rewrite !fmap_insert, fmap_app.
Qed.

Lemma relax_fold_lift K u cur es st :
  K ≤ B → bounded K st → 0 ≤ cur →
  (∀ e, e ∈ es → 0 ≤ weight e ∧ cur + weight e ≤ K) →
  fold_left (B64.relax_edge u (Z2F cur)) (lift_edge <$> es) (lift_state st) =
  lift_state (fold_left (relax_edge u cur) es st) ∧
  bounded K (fold_left (relax_edge u cur) es st).
Proof.
  intros HK. revert st. induction es as [|e es IH]; intros st Hb Hc Hes.
  - done.
  - destruct (Hes e ltac:(left)) as [Hw Hnd]. simpl.
    rewrite relax_edge_lift; [|by eapply bounded_mono|done|done|lia].
    apply IH; [|done|].
    + apply relax_edge_bounded; [done|lia].
    + intros e' He'. apply Hes. by right.
Qed.

Lemma neighbors_lift g u :
  B64.neighbors (lift_graph g) u = lift_edge <$> neighbors g u.
Proof.
  unfold B64.neighbors, neighbors, lift_graph. simpl.
  rewrite lookup_fmap. by destruct (adj g !! u).
Qed.

Lemma loop_body_lift g W K st cur u pq' :
  weights_in g W → 0 ≤ W → K + W ≤ B →
  bounded K st → 0 ≤ cur ≤ K → (∀ x, x ∈ pq' → x ∈ s_pq st) →
  B64.loop_body (lift_graph g) (lift_state st) (Z2F cur) u
                (lift_entry <$> pq') =
  lift_state (loop_body g st cur u pq') ∧
  bounded (K + W) (loop_body g st cur u pq').
Proof.
  intros Hg HW HK Hb Hc Hsub.
  pose proof Hb as [H1 H2].
  assert (bounded (K + W) (mkState (s_dist st) (s_prev st) pq' (s_visited st)))
    as Hb1.
  { split; simpl.
    - intros v d Hv. specialize (H1 _ _ Hv). lia.
    - intros x Hx. specialize (H2 _ (Hsub _ Hx)). lia. }
  unfold B64.loop_body, loop_body. simpl.
  destruct (decide (u ∈ s_visited st)) as [Hu|Hu]; [done|].
  rewrite dist_get_lift.
  assert (PrimFloat.eqb (Z2F cur) (lift_cost (dist_get (s_dist st) u)) =
          cost_eqb (Finite cur) (dist_get (s_dist st) u)) as ->.
  { unfold dist_get. destruct (s_dist st !! u) as [du|] eqn:E; simpl.
    - apply (ex_eqb B HB); [lia|]. specialize (H1 _ _ E). lia.
    - apply (ex_eq_inf B HB). lia. }
  destruct (negb _).
  - split; [done|]. split; simpl; apply Hb1.
  - rewrite neighbors_lift.
    destruct (relax_fold_lift (K + W) u cur (neighbors g u)
                (mkState (s_dist st) (s_prev st) pq' ({[u]} ∪ s_visited st)))
      as [Hl Hbd]; [done| |lia| |].
    + split; simpl; apply Hb1.
    + intros e He. specialize (Hg _ _ He). lia.
    + split; [exact Hl|exact Hbd].
Qed.

Lemma loop_lift g W fuel K st :
  weights_in g W → 0 ≤ W → 0 ≤ K →
  K + (Z.of_nat fuel + 1) * W ≤ B → bounded K st →
  B64.dijkstra_loop fuel (lift_graph g) (lift_state st) =
  lift_state <$> dijkstra_loop fuel g st ∧
  ∀ st', dijkstra_loop fuel g st = Some st' → bounded B st'.
Proof.
  intros Hg HW. revert K st.
  induction fuel as [|f IH]; intros K st HK HKB Hb.
  - simpl. unfold B64.dijkstra_step, dijkstra_step. simpl.
    rewrite heappop_lift by (intros x Hx; destruct Hb as [_ H2];
                             specialize (H2 _ Hx); lia).
    destruct (heappop (s_pq st)) as [[[cur u] pq']|] eqn:Hpop; simpl.
    + done.
    + split; [done|]. intros st' [= <-]. eapply bounded_mono; [|exact Hb]. lia.
  - simpl. unfold B64.dijkstra_step, dijkstra_step. simpl.
    rewrite heappop_lift by (intros x Hx; destruct Hb as [_ H2];
                             specialize (H2 _ Hx); lia).
    destruct (heappop (s_pq st)) as [[[cur u] pq']|] eqn:Hpop; simpl.
    + apply heappop_spec in Hpop as (Hin & _ & _ & _ & Hsub).
      assert (0 ≤ cur ≤ K) as Hc by (destruct Hb as [_ H2]; apply (H2 _ Hin)).
      destruct (loop_body_lift g W K st cur u pq' Hg HW ltac:(nia) Hb Hc Hsub)
        as [-> Hb'].
      apply (IH (K + W)); [lia|nia|done].
    + split; [done|]. intros st' [= <-]. eapply bounded_mono; [|exact Hb]. nia.
Qed.

Lemma edge_count_lift g : B64.edge_count (lift_graph g) = edge_count g.
Proof.
  unfold B64.edge_count, edge_count, lift_graph. simpl.
  rewrite map_to_list_fmap.
  induction (map_to_list (adj g)) as [|[k es] l IH]; [done|].
  rewrite fmap_cons. simpl. rewrite length_fmap. f_equal. exact IH.
Qed.

(** The run of the program on the binary64 image of an integer graph. *)
Lemma dijkstra_lift g W start :
  weights_in g W → 0 ≤ W → sum_bound g W ≤ B →
  B64.dijkstra (lift_graph g) start = lift_result <$> dijkstra g start ∧
  ∀ r v d, dijkstra g start = Some r → dist r !! v = Some d → 0 ≤ d ≤ B.
Proof.
  intros Hg HW HBd. unfold sum_bound in HBd.
  unfold B64.dijkstra, dijkstra, B64.dijkstra_fuel, dijkstra_fuel.
  rewrite edge_count_lift.
  assert (bounded 0 (init_state start)) as Hb0.
  { split; simpl.
    - intros v d Hv. apply lookup_singleton_Some in Hv as [_ <-]. lia.
    - intros x Hx%list_elem_of_singleton. subst x. simpl. lia. }
  destruct (loop_lift g W (S (edge_count g)) 0 (init_state start) Hg HW
              ltac:(lia) ltac:(lia) Hb0) as [Hrun Hfin].
  assert (B64.init_state start = lift_state (init_state start)) as ->.
  { unfold B64.init_state, lift_state. simpl.
    by rewrite map_fmap_singleton, fmap_empty. }
  rewrite Hrun.
  destruct (dijkstra_loop (S (edge_count g)) g (init_state start)) as [st|];
    simpl; [|done].
  split; [done|]. intros r v d [= <-] Hd. simpl in Hd.
  destruct (Hfin st eq_refl) as [H1 _]. by apply (H1 v).
Qed.

Lemma rev_fmap {A C} (f : A → C) (l : list A) : rev (f <$> l) = f <$> rev l.
Proof.
  induction l as [|x l IH]; [done|].
  rewrite fmap_cons. simpl. by rewrite IH, fmap_app.
Qed.

Lemma rebuild_loop_lift fuel prev start cur out_rev :
  B64.rebuild_loop fuel (lift_parent <$> prev) start cur
                   (lift_edge <$> out_rev) =
  fmap (M := list) lift_edge <$> rebuild_loop fuel prev start cur out_rev.
Proof.
  revert cur out_rev. induction fuel as [|f IH]; intros cur out_rev; simpl;
    (destruct (decide (cur = start)); [simpl; by rewrite rev_fmap|]);
    rewrite lookup_fmap; destruct (prev !! cur) as [[par e]|]; simpl;
    try done.
  by rewrite <- IH, fmap_app.
Qed.

Lemma rebuild_path_lift prev start target :
  B64.rebuild_path (lift_parent <$> prev) start target =
  fmap (M := list) lift_edge <$> rebuild_path prev start target.
Proof.
  unfold B64.rebuild_path, rebuild_path, B64.rebuild_path_fuel,
    rebuild_path_fuel.
  rewrite map_size_fmap. destruct (decide (target = start)); [done|].
  apply (rebuild_loop_lift _ _ _ _ []).
Qed.






End Exact.

(** ** The store and the walks of a binary64 image *)





Lemma walk_lift g s es t :
  walk g s es t → B64.walk (lift_graph g) s (lift_edge <$> es) t.
Proof.
  induction 1 as [s|s e es t He Hw IH]; [constructor|].
  rewrite fmap_cons. constructor; [|exact IH].
  rewrite neighbors_lift. apply list_elem_of_fmap. by exists e.
Qed.

Lemma walk_unlift g s esf t :
  B64.walk (lift_graph g) s esf t →
  ∃ es, esf = lift_edge <$> es ∧ walk g s es t.
Proof.
  induction 1 as [s|s ef esf t He Hw (es & -> & IH)].
  - exists []. split; [done|constructor].
  - rewrite neighbors_lift in He.
    apply list_elem_of_fmap in He as (e & -> & He).
    exists (e :: es). split; [done|]. by constructor.
Qed.

Lemma reachable_lift g s t :
  B64.reachable (lift_graph g) s t ↔ reachable g s t.
Proof.
  split.
  - intros [esf (es & _ & Hw)%walk_unlift]. by exists es.
  - intros [es Hw]. exists (lift_edge <$> es). by apply walk_lift.
Qed.

Lemma weights_inb_spec g W : weights_inb g W = true → weights_in g W.
Proof.
  unfold weights_inb, weights_in, neighbors. intros H u e He.
  destruct (adj g !! u) as [es|] eqn:E; simpl in He;
    [|by apply elem_of_nil in He].
  rewrite forallb_forall in H.
  apply elem_of_map_to_list, list_elem_of_In in E.
  specialize (H _ E). simpl in H. rewrite forallb_forall in H.
  apply list_elem_of_In in He. apply H in He.
  apply andb_true_iff in He as [H1%Z.leb_le H2%Z.leb_le]. lia.
Qed.

Lemma weights_in_nonneg g W : weights_in g W → nonneg_weights g.
Proof. intros H u e He. specialize (H u e He). lia. Qed.

(** Binary64 is exact on the integers from 0 to 25, by evaluation. *)
Lemma exact_upto_25 : exact_upto 25.
Proof.
  assert (∀ a, 0 ≤ a ≤ 25 → ∃ n, a = Z.of_nat n ∧ (n ≤ 25)%nat) as Hnat
    by (intros a Ha; exists (Z.to_nat a); lia).
  constructor.
  - intros a b Ha Hb Hab.
    destruct (Hnat a ltac:(lia)) as (n & -> & Hn).
    destruct (Hnat b ltac:(lia)) as (m & -> & Hm).
    do 26 (destruct n as [|n];
           [do 26 (destruct m as [|m]; [vm_compute; reflexivity|]); lia|]).
    lia.
  - intros a b Ha Hb.
    destruct (Hnat a Ha) as (n & -> & Hn).
    destruct (Hnat b Hb) as (m & -> & Hm).
    do 26 (destruct n as [|n];
           [do 26 (destruct m as [|m]; [vm_compute; reflexivity|]); lia|]).
    lia.
  - intros a b Ha Hb.
    destruct (Hnat a Ha) as (n & -> & Hn).
    destruct (Hnat b Hb) as (m & -> & Hm).
    do 26 (destruct n as [|n];
           [do 26 (destruct m as [|m]; [vm_compute; reflexivity|]); lia|]).
    lia.
  - intros a Ha. destruct (Hnat a Ha) as (n & -> & Hn).
    do 26 (destruct n as [|n]; [vm_compute; reflexivity|]). lia.
  - intros a Ha. destruct (Hnat a Ha) as (n & -> & Hn).
    do 26 (destruct n as [|n]; [vm_compute; reflexivity|]). lia.
  - intros a Ha. destruct (Hnat a Ha) as (n & -> & Hn).
    do 26 (destruct n as [|n]; [vm_compute; reflexivity|]). lia.
Qed.

(** * The claims on the binary64 program *)

(** ** Where rounding and overflow break them *)

Lemma overflow_graph_nonneg : B64.nonneg_weights B64.overflow_graph.
Proof.
  unfold B64.nonneg_weights, B64.neighbors. intros u e He.
  assert (B64.nonneg_weightsb B64.overflow_graph = true) as H
    by (vm_compute; reflexivity).
  unfold B64.nonneg_weightsb in H. rewrite forallb_forall in H.
  destruct (B64.adj B64.overflow_graph !! u) as [es|] eqn:E; simpl in He;
    [|by apply elem_of_nil in He].
  apply elem_of_map_to_list, list_elem_of_In in E.
  specialize (H _ E). simpl in H. rewrite forallb_forall in H.
  apply H. by apply list_elem_of_In.
Qed.

Lemma overflow_graph_s_b : B64.reachable B64.overflow_graph "s" "b".
Proof.
  exists [B64.mkEdge "s" "a" "sa" 0x1p1023%float;
          B64.mkEdge "a" "b" "ab" 0x1p1023%float].
  apply B64.walk_cons; [apply list_elem_of_In; vm_compute; auto|].
  apply B64.walk_cons; [apply list_elem_of_In; vm_compute; auto|].
  apply B64.walk_nil.
Qed.


(** C1 fails in binary64: with the two non-negative weights [2^1023] the
    node [b] is reachable from [s], but the sum overflows to [inf], the
    test of line 63 is false and [b] gets no entry. *)
Lemma dijkstra_overflow_counterexample :
  B64.nonneg_weights B64.overflow_graph ∧
  B64.reachable B64.overflow_graph "s" "b" ∧
  ∃ r, B64.dijkstra B64.overflow_graph "s" = Some r ∧
       B64.dist r !! "b" = None ∧
       B64.dist r !! "a" = Some 0x1p1023%float.
Proof.
  split; [exact overflow_graph_nonneg|]. split; [exact overflow_graph_s_b|].
  eexists. split; [vm_compute; reflexivity|].
  split; vm_compute; reflexivity.
Qed.

(** C2 fails in binary64: on the same graph the target [b] is reachable
    from [s] and different from it, but the rebuilt edge sequence is empty
    and there is no cost entry for [b]. *)
Lemma rebuild_path_overflow_counterexample :
  B64.nonneg_weights B64.overflow_graph ∧
  B64.reachable B64.overflow_graph "s" "b" ∧ "b" ≠ "s" ∧
  ∃ r, B64.dijkstra B64.overflow_graph "s" = Some r ∧
       B64.rebuild_path (B64.prev r) "s" "b" = Some [] ∧
       B64.dist r !! "b" = None.
Proof.
  split; [exact overflow_graph_nonneg|]. split; [exact overflow_graph_s_b|].
  split; [discriminate|].
  eexists. split; [vm_compute; reflexivity|].
  split; vm_compute; reflexivity.
Qed.


(** C6 fails in binary64: with the weights [2^53], 3, 3 the computed
    distance from [a] to [c] is [2^53 + 8], larger than the sum
    [2^53 + 6] of the computed distances from [a] to [b] and from [b] to
    [c]. *)
Lemma triangle_rounding_counterexample :
  B64.nonneg_weightsb B64.rounding_graph = true ∧
  ∃ ra rb dab dbc dac,
    B64.dijkstra B64.rounding_graph "a" = Some ra ∧
    B64.dijkstra B64.rounding_graph "b" = Some rb ∧
    B64.dist ra !! "b" = Some dab ∧ B64.dist rb !! "c" = Some dbc ∧
    B64.dist ra !! "c" = Some dac ∧
    PrimFloat.add dab dbc = Z2F (2 ^ 53 + 6) ∧ dac = Z2F (2 ^ 53 + 8) ∧
    PrimFloat.ltb (PrimFloat.add dab dbc) dac = true.
Proof.
  split; [vm_compute; reflexivity|].
  eexists _, _, _, _, _.
  split; [vm_compute; reflexivity|].
  split; [vm_compute; reflexivity|].
  split; [vm_compute; reflexivity|].
  split; [vm_compute; reflexivity|].
  split; [vm_compute; reflexivity|].
  split; [vm_compute; reflexivity|].
  split; vm_compute; reflexivity.
Qed.



(** ** Where they hold: integer weights that binary64 adds exactly *)

Lemma b64_dijkstra_result g W B start :
  exact_upto B → weights_in g W → 0 ≤ W → sum_bound g W ≤ B →
  ∃ r, dijkstra g start = Some r ∧
       B64.dijkstra (lift_graph g) start = Some (lift_result r) ∧
       ∀ v d, dist r !! v = Some d → 0 ≤ d ≤ B.
Proof.
  intros HB Hg HW Hb.
  destruct (dijkstra_lift B HB g W start Hg HW Hb) as [Hrun Hbd].
  destruct (dijkstra_total g start) as [r Hr].
  exists r. rewrite Hrun, Hr. split_and!; [done|done|].
  intros v d. by apply Hbd.
Qed.

Lemma example_graph_weights : weights_in example_graph 5.
Proof. apply weights_inb_spec. vm_compute. reflexivity. Qed.

Lemma example_graph_bound : sum_bound example_graph 5 ≤ 25.
Proof. vm_compute. discriminate. Qed.

(** C1, amended: for a graph whose weights are integers from 0 to [W],
    when binary64 adds and compares exactly the integers up to
    (number of edges + 2) * [W] (IEEE 754 gives this up to [2^53]), the
    binary64 run of [dijkstra] returns a distance map in which the start
    has distance 0, a node has an entry exactly when it is reachable, and
    every entry is the least weight of a walk from the start. *)
Theorem b64_distances_shortest g W B start :
  exact_upto B → weights_in g W → 0 ≤ W → sum_bound g W ≤ B →
  ∃ rf, B64.dijkstra (lift_graph g) start = Some rf ∧
        B64.dist rf !! start = Some 0%float ∧
        (∀ v, is_Some (B64.dist rf !! v) ↔
              B64.reachable (lift_graph g) start v) ∧
        (∀ v f, B64.dist rf !! v = Some f →
                ∃ d, f = Z2F d ∧ shortest g start v d).
Proof.
  intros HB Hg HW Hb.
  destruct (b64_dijkstra_result g W B start HB Hg HW Hb) as (r & Hr & Hrf & _).
  destruct (dijkstra_spec g start (weights_in_nonneg g W Hg))
    as (r' & Hr' & H0 & Hreach & Hsh).
  rewrite Hr in Hr'. injection Hr' as <-.
  exists (lift_result r). split; [done|]. simpl. split_and!.
  - by rewrite lookup_fmap, H0.
  - intros v. rewrite lookup_fmap, fmap_is_Some, reachable_lift. apply Hreach.
  - intros v f Hf. rewrite lookup_fmap in Hf.
    destruct (dist r !! v) as [d|] eqn:E; [|done].
    injection Hf as <-. exists d. split; [done|]. by apply Hsh.
Qed.

Lemma b64_distances_shortest_witness :
  ∃ rf, B64.dijkstra (lift_graph example_graph) "A" = Some rf ∧
        B64.dist rf !! "A" = Some 0%float ∧
        (∀ v, is_Some (B64.dist rf !! v) ↔
              B64.reachable (lift_graph example_graph) "A" v) ∧
        (∀ v f, B64.dist rf !! v = Some f →
                ∃ d, f = Z2F d ∧ shortest example_graph "A" v d).
Proof.
  apply (b64_distances_shortest example_graph 5 25 "A").
  - exact exact_upto_25.
  - exact example_graph_weights.
  - lia.
  - exact example_graph_bound.
Defined.

(** C2, amended: under the same exactness condition, in a graph whose
    edges are stored under their source, for a target reachable from [s]
    and different from it, [rebuild_path] on the predecessor map of the
    binary64 run returns stored edges that form a contiguous path from [s]
    to [t], and the integer weights of these edges add up to the integer
    that the cost entry of [t] denotes. *)
Theorem b64_rebuild_path_contiguous g W B s t :
  exact_upto B → weights_in g W → 0 ≤ W → sum_bound g W ≤ B →
  keyed g → B64.reachable (lift_graph g) s t → t ≠ s →
  ∃ rf path es d,
    B64.dijkstra (lift_graph g) s = Some rf ∧
    B64.rebuild_path (B64.prev rf) s t = Some path ∧
    B64.dist rf !! t = Some (Z2F d) ∧
    path = lift_edge <$> es ∧
    B64.walk (lift_graph g) s path t ∧
    (∃ e0, head path = Some e0 ∧ B64.src e0 = s) ∧
    (∀ i e1 e2, path !! i = Some e1 → path !! S i = Some e2 →
                B64.dst e1 = B64.src e2) ∧
    (∃ el, last path = Some el ∧ B64.dst el = t) ∧
    path_weight es = d.
Proof.
  intros HB Hg HW Hb Hk Hreach%reachable_lift Hts.
  destruct (b64_dijkstra_result g W B s HB Hg HW Hb) as (r & Hr & Hrf & _).
  destruct (rebuild_path_contiguous g s t (weights_in_nonneg g W Hg) Hk Hreach
              Hts)
    as (r' & es & d & Hr' & Hp & Hd & Hw & (e0 & He0 & Hs0) & Hmid &
        (el & Hel & Hdl) & Hpw).
  rewrite Hr in Hr'. injection Hr' as <-.
  exists (lift_result r), (lift_edge <$> es), es, d. simpl.
  split_and!; try done.
  - by rewrite rebuild_path_lift, Hp.
  - by rewrite lookup_fmap, Hd.
  - by apply walk_lift.
  - exists (lift_edge e0). split; [|done].
    destruct es; [done|]. simpl in *. by injection He0 as ->.
  - intros i e1 e2. rewrite !list_lookup_fmap.
    destruct (es !! i) as [x1|] eqn:E1; [|done].
    destruct (es !! S i) as [x2|] eqn:E2; [|done].
    intros [= <-] [= <-]. simpl. by apply (Hmid i).
  - exists (lift_edge el). split; [|done].
    apply last_Some in Hel as [l' ->]. rewrite fmap_app.
    change (lift_edge <$> [el]) with [lift_edge el]. apply last_snoc.
Qed.

Lemma b64_rebuild_path_contiguous_witness :
  ∃ rf path es d,
    B64.dijkstra (lift_graph example_graph) "A" = Some rf ∧
    B64.rebuild_path (B64.prev rf) "A" "C" = Some path ∧
    B64.dist rf !! "C" = Some (Z2F d) ∧
    path = lift_edge <$> es ∧
    B64.walk (lift_graph example_graph) "A" path "C" ∧
    (∃ e0, head path = Some e0 ∧ B64.src e0 = "A") ∧
    (∀ i e1 e2, path !! i = Some e1 → path !! S i = Some e2 →
                B64.dst e1 = B64.src e2) ∧
    (∃ el, last path = Some el ∧ B64.dst el = "C") ∧
    path_weight es = d.
Proof.
  apply (b64_rebuild_path_contiguous example_graph 5 25 "A" "C").
  - exact exact_upto_25.
  - exact example_graph_weights.
  - lia.
  - exact example_graph_bound.
  - exact example_graph_keyed.
  - apply reachable_lift. exact example_graph_A_C.
  - discriminate.
Defined.



(** C6, amended: under the same exactness condition, when [b] is reachable
    from [a] and [c] from [b], the three binary64 distances exist and the
    integers they denote satisfy [dist(a,c) <= dist(a,b) + dist(b,c)]. *)
Theorem b64_distance_triangle g W B a b c :
  exact_upto B → weights_in g W → 0 ≤ W → sum_bound g W ≤ B →
  B64.reachable (lift_graph g) a b → B64.reachable (lift_graph g) b c →
  ∃ ra rb dab dbc dac,
    B64.dijkstra (lift_graph g) a = Some ra ∧
    B64.dijkstra (lift_graph g) b = Some rb ∧
    B64.dist ra !! b = Some (Z2F dab) ∧ B64.dist rb !! c = Some (Z2F dbc) ∧
    B64.dist ra !! c = Some (Z2F dac) ∧ dac ≤ dab + dbc.
Proof.
  intros HB Hg HW Hb Hab%reachable_lift Hbc%reachable_lift.
  destruct (distance_triangle g a b c (weights_in_nonneg g W Hg) Hab Hbc)
    as (ra & rb & dab & dbc & dac & Hra & Hrb & H1 & H2 & H3 & Hle).
  destruct (b64_dijkstra_result g W B a HB Hg HW Hb) as (ra' & Hra' & Hfa & _).
  destruct (b64_dijkstra_result g W B b HB Hg HW Hb) as (rb' & Hrb' & Hfb & _).
  rewrite Hra in Hra'. injection Hra' as <-.
  rewrite Hrb in Hrb'. injection Hrb' as <-.
  exists (lift_result ra), (lift_result rb), dab, dbc, dac. simpl.
  rewrite !lookup_fmap, H1, H2, H3. by split_and!.
Qed.

Lemma b64_distance_triangle_witness :
  ∃ ra rb dab dbc dac,
    B64.dijkstra (lift_graph example_graph) "A" = Some ra ∧
    B64.dijkstra (lift_graph example_graph) "B" = Some rb ∧
    B64.dist ra !! "B" = Some (Z2F dab) ∧ B64.dist rb !! "C" = Some (Z2F dbc) ∧
    B64.dist ra !! "C" = Some (Z2F dac) ∧ dac ≤ dab + dbc.
Proof.
  apply (b64_distance_triangle example_graph 5 25 "A" "B" "C").
  - exact exact_upto_25.
  - exact example_graph_weights.
  - lia.
  - exact example_graph_bound.
  - apply reachable_lift. exact example_graph_A_B.
  - apply reachable_lift. exact example_graph_B_C.
Defined.




(** The binary64 ranking of that witness: the unreachable [A] stands after
    the reachable [C]. *)
Example b64_rank_example :
  ∃ rf, B64.dijkstra (lift_graph example_graph) "B" = Some rf ∧
        B64.rank (B64.dist rf) ["A"; "C"] = [("C", 1%float); ("A", infinity)].
Proof. eexists. split; vm_compute; reflexivity. Qed.

(** ** The binary64 run is the integer run *)

(** X17: for integer weights from 0 to [W], when binary64 adds and compares
    exactly the integers up to (number of edges + 2) * [W], the binary64
    run of [dijkstra] produces, entry for entry, the distances and
    predecessor links of the run over the integers, and none of these
    distances exceeds the bound. *)
Theorem b64_run_is_integer_run g W B start :
  exact_upto B → weights_in g W → 0 ≤ W → sum_bound g W ≤ B →
  B64.dijkstra (lift_graph g) start = lift_result <$> dijkstra g start ∧
  ∀ r v d, dijkstra g start = Some r → dist r !! v = Some d → 0 ≤ d ≤ B.
Proof. intros HB Hg HW Hb. by apply (dijkstra_lift B HB g W). Qed.

Lemma b64_run_is_integer_run_witness :
  B64.dijkstra (lift_graph example_graph) "A" =
    lift_result <$> dijkstra example_graph "A" ∧
  ∀ r v d, dijkstra example_graph "A" = Some r → dist r !! v = Some d →
           0 ≤ d ≤ 25.
Proof.
  apply (b64_run_is_integer_run example_graph 5 25 "A").
  - exact exact_upto_25.
  - exact example_graph_weights.
  - lia.
  - exact example_graph_bound.
Defined.
